(** * Hand-drawn stroke animation system (threejs-wgsl, Babylon.js drawing port)

    A shallow embedding of the stroke bank ([StrokeTextureManager]), the shared
    constants ([DRAWING_CONSTANTS]), the scene set-up that derives the kernel's
    dispatch size ([DrawingScene]) and the WGSL stroke-animation kernels, with
    the properties the design document states about them.

    Conventions of the embedding.
    - Kernel arithmetic (WGSL [f32]) is carried out in exact rational
      arithmetic ([Q]); [u32] values are integers in [0, 2^32) with the
      wrap-around written out.
    - A JavaScript [number] is a value of [num]: a rational, one of the two
      infinities, or NaN.  The host's arithmetic on numbers rounds to
      double precision ([Binary.binary64]), its comparisons are false on
      NaN, and a row index handed to the bank is such a number.
    - A typed array ([Float32Array]) is a list; a store whose key is not an
      integer inside the array is ignored, as for typed arrays.
    - Slots and invocation indices of the kernels are integers ([Z]). *)

From Stdlib Require Import ZArith QArith Qminmax Qround Qabs Qpower Lia Lqa Bool.
From stdpp Require Import base list.

Open Scope Q_scope.

(* ===================================================================== *)
(** ** Shared constants ([constants.ts]) *)
(* ===================================================================== *)

Module DRAWING_CONSTANTS.

(** Stroke resolution. *)
Definition POINTS_PER_STROKE : Z := 1024.

(** System limits. *)
Definition MAX_STROKES : Z := 64.
Definition MAX_ANIMATIONS : Z := 64.

(** GPU optimization. *)
Definition WORKGROUP_SIZE : Z := 64.

(** Canvas dimensions. *)
Definition CANVAS_WIDTH : Z := 1280.
Definition CANVAS_HEIGHT : Z := 720.

(** Buffer sizes (in bytes). *)
Definition LAUNCH_CONFIG_SIZE : Z := 12 * 4.
Definition MATRIX_SIZE : Z := 16 * 4.

(** Texture dimensions. *)
Definition STROKE_TEXTURE_WIDTH : Z := 1024.
Definition STROKE_TEXTURE_HEIGHT : Z := 64.

End DRAWING_CONSTANTS.

(* ===================================================================== *)
(** ** JavaScript numbers as the host code inspects them *)
(* ===================================================================== *)

(** A [number]: NaN, an infinity, or a finite value.  Finite values carry
    their exact rational value, so the comparisons below are those of the
    language ([-0] and [+0] compare equal there as well). *)
Inductive num : Type :=
| NaN
| NegInfinity
| Finite (q : Q)
| PosInfinity.

(** The global [isFinite] on a number. *)
Definition isFinite (v : num) : bool :=
  match v with
  | Finite _ => true
  | _ => false
  end.

Definition Qltb (a b : Q) : bool :=
  match a ?= b with
  | Lt => true
  | _ => false
  end.

(** [a < b] on numbers: false as soon as one side is NaN. *)
Definition num_lt (a b : num) : bool :=
  match a, b with
  | NaN, _ | _, NaN => false
  | NegInfinity, NegInfinity => false
  | NegInfinity, _ => true
  | Finite _, NegInfinity => false
  | Finite p, Finite q => Qltb p q
  | Finite _, PosInfinity => true
  | PosInfinity, _ => false
  end.

(** [a > b] is [b < a]. *)
Definition num_gt (a b : num) : bool := num_lt b a.

(** [a <= b] on numbers. *)
Definition num_le (a b : num) : bool :=
  match a, b with
  | NaN, _ | _, NaN => false
  | NegInfinity, _ => true
  | Finite _, NegInfinity => false
  | Finite p, Finite q => Qle_bool p q
  | Finite _, PosInfinity => true
  | PosInfinity, PosInfinity => true
  | PosInfinity, _ => false
  end.

Definition num_eq (a b : num) : bool := num_le a b && num_le b a.

(** [a >= b] is [b <= a]. *)
Definition num_ge (a b : num) : bool := num_le b a.

(** The number with an integer value: a constant, a length, a loop
    counter. *)
Definition ofZ (z : Z) : num := Finite (inject_Z z).

(** *** IEEE 754 binary formats *)

Module Binary.

Definition pow2 (k : Z) : Q := 2 ^ k.

(** The exponent of the binade of a positive number: [floor (log2 a)].
    The two logarithms place it within one of the difference. *)
Definition binade (a : Q) : Z :=
  let k := (Z.log2 (Qnum a) - Z.log2 (Zpos (Qden a)))%Z in
  if Qle_bool (pow2 k) a then k else (k - 1)%Z.

(** Rounding to the nearest integer, a tie going to the even one. *)
Definition nearestEven (v : Q) : Z :=
  let f := Qfloor v in
  match Qcompare (v - inject_Z f) (1 # 2) with
  | Lt => f
  | Eq => if Z.even f then f else (f + 1)%Z
  | Gt => (f + 1)%Z
  end.

(** Round to nearest, ties to even, in the format with [prec] significant
    bits and exponents [emin .. emax]: the unit in the last place is that of
    the binade of the number, or of the subnormal range below [2^emin], and
    a result of [2^(emax+1)] or more is an infinity.  The finite result is
    kept in lowest terms. *)
Definition round (prec emin emax : Z) (q : Q) : num :=
  if Qeq_bool q 0 then Finite 0
  else
    let a := Qabs q in
    let e := Z.max (binade a) emin in
    let ulp := pow2 (e - (prec - 1)) in
    let r := inject_Z (nearestEven (a / ulp)) * ulp in
    if Qle_bool (pow2 (emax + 1)) r
    then (if Qle_bool 0 q then PosInfinity else NegInfinity)
    else Finite (Qred (if Qle_bool 0 q then r else - r)).

Definition binary32 : Q -> num := round 24 (-126) 127.
Definition binary64 : Q -> num := round 53 (-1022) 1023.

End Binary.

(** *** Arithmetic of the host on numbers *)

(** -1, 0 or 1; 0 for NaN. *)
Definition num_sign (a : num) : Z :=
  match a with
  | NaN => 0
  | NegInfinity => -1
  | Finite q => Z.sgn (Qnum q)
  | PosInfinity => 1
  end.

(** [a + b]. *)
Definition num_add (a b : num) : num :=
  match a, b with
  | NaN, _ | _, NaN => NaN
  | PosInfinity, NegInfinity | NegInfinity, PosInfinity => NaN
  | PosInfinity, _ | _, PosInfinity => PosInfinity
  | NegInfinity, _ | _, NegInfinity => NegInfinity
  | Finite p, Finite q => Binary.binary64 (p + q)
  end.

(** [a * b]; an infinity times zero is NaN. *)
Definition num_mul (a b : num) : num :=
  match a, b with
  | NaN, _ | _, NaN => NaN
  | Finite p, Finite q => Binary.binary64 (p * q)
  | _, _ =>
      match (num_sign a * num_sign b)%Z with
      | Z0 => NaN
      | Zpos _ => PosInfinity
      | Zneg _ => NegInfinity
      end
  end.

(** *** Single precision *)

Module Float32.

(** [Math.fround]: what a [Float32Array] keeps of a number stored in it. *)
Definition fround (v : num) : num :=
  match v with
  | Finite q => Binary.binary32 q
  | _ => v
  end.




End Float32.

(** [strokeTypes.ts]: a point of a stroke. *)
Record StrokePoint : Type := mkStrokePoint {
  x : num;
  y : num;
  t : num;
}.

(* ===================================================================== *)
(** ** The stroke bank ([strokeTextureManager.ts]) *)
(* ===================================================================== *)

(** What [strokeTexture] is given: the constructor and [uploadStroke] pass a
    [Float16Array] built from the texture data, the other operations pass
    the [Float32Array] itself. *)
Inductive TexturePayload : Type :=
| Float16Array_of (data : list num)
| Float32Array_raw (data : list num).

(** The two [Error]s the manager throws, told apart by their message. *)
Inductive BankError : Type :=
| StrokeIndexOutOfRange (strokeIndex : num) (maxStrokes : Z)
| PointCountMismatch (expected : Z) (got : Z).

(** The two [console.warn] messages of [uploadStrokes]. *)
Inductive BankWarning : Type :=
| SkippingOutOfRange (index : num) (maxStrokes : Z)
| SkippingPointCount (index : num) (got : Z) (expected : Z).

(** The errors [validateStrokeData] collects. *)
Inductive ValidationError : Type :=
| PointCountError (expected : Z) (got : Z)
| InvalidCoordinates (i : nat) (px py : num)
| InvalidTParameter (i : nat) (pt : num)
| DecreasingTParameter (i : nat) (pt prev : num).

Record ValidationResult : Type := mkValidationResult {
  valid : bool;
  errors : list ValidationError;
}.

(** An entry of the batch given to [uploadStrokes]. *)
Record StrokeEntry : Type := mkStrokeEntry {
  index : num;
  points : list StrokePoint;
}.

(** The manager's fields.  [strokeTexture] is the sequence of payloads the
    GPU texture has been given (creation first, then every [update]);
    [console] collects the warnings printed so far. *)
Record StrokeTextureManager : Type := mkStrokeTextureManager {
  strokeTexture : list TexturePayload;
  maxStrokes : Z;
  pointsPerStroke : Z;
  textureData : list num;
  console : list BankWarning;
}.

Definition set_textureData (m : StrokeTextureManager) (d : list num) :=
  mkStrokeTextureManager (strokeTexture m) (maxStrokes m) (pointsPerStroke m)
    d (console m).

Definition texture_update (m : StrokeTextureManager) (p : TexturePayload) :=
  mkStrokeTextureManager (strokeTexture m ++ [p]) (maxStrokes m)
    (pointsPerStroke m) (textureData m) (console m).

Definition console_warn (m : StrokeTextureManager) (w : BankWarning) :=
  mkStrokeTextureManager (strokeTexture m) (maxStrokes m) (pointsPerStroke m)
    (textureData m) (console m ++ [w]).

(** A call either returns or throws; the manager is returned in both cases,
    so that what a failing call has already written stays visible. *)
Definition Outcome : Type := option BankError.

Definition length_Z {A} (l : list A) : Z := Z.of_nat (length l).

Section Bank.

(** The conversion a [Float32Array] applies to a stored number (rounding to
    single precision, [Math.fround]). *)
Variable fround : num -> num.

(** [a[i] = v] on a [Float32Array] for an integer [i]: ignored outside
    the array. *)
Definition typed_set (a : list num) (i : Z) (v : num) : list num :=
  if (0 <=? i)%Z then <[Z.to_nat i := fround v]> a else a.

(** [a[k] = v] for a number [k]: [k] is an element index only when it is an
    integer; a store under any other number, NaN and the infinities
    included, is ignored. *)
Definition typed_store (a : list num) (k : num) (v : num) : list num :=
  match k with
  | Finite q =>
      if Qeq_bool (inject_Z (Qfloor q)) q then typed_set a (Qfloor q) v else a
  | _ => a
  end.

(** [constructor] and [createStrokeTexture]. *)
Definition createStrokeTexture : StrokeTextureManager :=
  let maxStrokes := DRAWING_CONSTANTS.MAX_STROKES in
  let pointsPerStroke := DRAWING_CONSTANTS.POINTS_PER_STROKE in
  let texWidth := pointsPerStroke in
  let texHeight := maxStrokes in
  let textureData := replicate (Z.to_nat (texWidth * texHeight * 2)) (Finite 0) in
  mkStrokeTextureManager [Float16Array_of textureData] maxStrokes
    pointsPerStroke textureData [].

(** [strokeIndex * this.pointsPerStroke * 2]. *)
Definition rowStart (strokeIndex : num) (pointsPerStroke : Z) : num :=
  num_mul (num_mul strokeIndex (ofZ pointsPerStroke)) (ofZ 2).

(** The copy loop shared by [uploadStroke] and [uploadStrokes]:
    [for (let i = 0; i < points.length; i++)] with [i] the running index,
    an integer below the length of an array. *)
Fixpoint copyPoints (rowStartIndex : num) (i : Z) (pts : list StrokePoint)
    (data : list num) : list num :=
  match pts with
  | [] => data
  | point :: rest =>
      let bufferIndex := num_add rowStartIndex (ofZ (i * 2)) in
      let data := typed_store data bufferIndex (x point) in
      let data := typed_store data (num_add bufferIndex (ofZ 1)) (y point) in
      copyPoints rowStartIndex (i + 1)%Z rest data
  end.

Definition uploadStroke (m : StrokeTextureManager) (strokeIndex : num)
    (pts : list StrokePoint) : StrokeTextureManager * Outcome :=
  if num_lt strokeIndex (ofZ 0) || num_ge strokeIndex (ofZ (maxStrokes m)) then
    (m, Some (StrokeIndexOutOfRange strokeIndex (maxStrokes m)))
  else if negb (length_Z pts =? pointsPerStroke m)%Z then
    (m, Some (PointCountMismatch (pointsPerStroke m) (length_Z pts)))
  else
    let rowStartIndex := rowStart strokeIndex (pointsPerStroke m) in
    let m := set_textureData m (copyPoints rowStartIndex 0 pts (textureData m)) in
    let float16Array := Float16Array_of (textureData m) in
    (texture_update m float16Array, None).

(** The body of the [for ... of] loop of [uploadStrokes]; the flag is
    [needsUpdate]. *)
Definition uploadStrokes_step (st : StrokeTextureManager * bool)
    (stroke : StrokeEntry) : StrokeTextureManager * bool :=
  let (m, needsUpdate) := st in
  if num_lt (index stroke) (ofZ 0)
     || num_ge (index stroke) (ofZ (maxStrokes m)) then
    (console_warn m (SkippingOutOfRange (index stroke) (maxStrokes m)),
     needsUpdate)
  else if negb (length_Z (points stroke) =? pointsPerStroke m)%Z then
    (console_warn m
       (SkippingPointCount (index stroke) (length_Z (points stroke))
          (pointsPerStroke m)),
     needsUpdate)
  else
    let rowStartIndex := rowStart (index stroke) (pointsPerStroke m) in
    (set_textureData m
       (copyPoints rowStartIndex 0 (points stroke) (textureData m)),
     true).

Definition uploadStrokes (m : StrokeTextureManager)
    (strokes : list StrokeEntry) : StrokeTextureManager * Outcome :=
  let (m, needsUpdate) := foldl uploadStrokes_step (m, false) strokes in
  if needsUpdate then
    (texture_update m (Float32Array_raw (textureData m)), None)
  else (m, None).

(** [for (let i = 0; i < pointsPerStroke * 2; i++) textureData[row + i] = 0]. *)
Fixpoint zeroFrom (rowStartIndex : num) (i : Z) (n : nat) (data : list num)
    : list num :=
  match n with
  | O => data
  | S n' =>
      zeroFrom rowStartIndex (i + 1)%Z n'
        (typed_store data (num_add rowStartIndex (ofZ i)) (Finite 0))
  end.

Definition clearStroke (m : StrokeTextureManager) (strokeIndex : num)
    : StrokeTextureManager * Outcome :=
  if num_lt strokeIndex (ofZ 0) || num_ge strokeIndex (ofZ (maxStrokes m)) then
    (m, Some (StrokeIndexOutOfRange strokeIndex (maxStrokes m)))
  else
    let rowStartIndex := rowStart strokeIndex (pointsPerStroke m) in
    let m :=
      set_textureData m
        (zeroFrom rowStartIndex 0 (Z.to_nat (pointsPerStroke m * 2))
           (textureData m)) in
    (texture_update m (Float32Array_raw (textureData m)), None).

Definition clearAllStrokes (m : StrokeTextureManager) : StrokeTextureManager :=
  let m := set_textureData m (map (fun _ => fround (Finite 0)) (textureData m)) in
  texture_update m (Float32Array_raw (textureData m)).

(** The first loop of [validateStrokeData]: coordinates and the range of
    [t], point by point. *)
Fixpoint checkPoints (i : nat) (pts : list StrokePoint)
    : list ValidationError :=
  match pts with
  | [] => []
  | point :: rest =>
      (if negb (isFinite (x point)) || negb (isFinite (y point))
       then [InvalidCoordinates i (x point) (y point)] else [])
      ++ (if num_lt (t point) (Finite 0) || num_gt (t point) (Finite 1)
          then [InvalidTParameter i (t point)] else [])
      ++ checkPoints (S i) rest
  end.

(** The second loop: it starts at [i = 1], compares [points[i].t] with
    [points[i - 1].t] and stops at the first decrease. *)
Fixpoint checkProgression (i : nat) (prev : StrokePoint)
    (rest : list StrokePoint) : list ValidationError :=
  match rest with
  | [] => []
  | point :: rest' =>
      if num_lt (t point) (t prev)
      then [DecreasingTParameter i (t point) (t prev)]
      else checkProgression (S i) point rest'
  end.

Definition validateStrokeData (m : StrokeTextureManager)
    (pts : list StrokePoint) : ValidationResult :=
  let errors :=
    (if negb (length_Z pts =? pointsPerStroke m)%Z
     then [PointCountError (pointsPerStroke m) (length_Z pts)] else [])
    ++ checkPoints 0 pts
    ++ match pts with
       | [] => []
       | first :: rest => checkProgression 1 first rest
       end in
  mkValidationResult (Nat.eqb (length errors) 0) errors.

(** The cells of a row as the copy loop leaves them: x then y, point by
    point, each converted to single precision. *)
Fixpoint encode (pts : list StrokePoint) : list num :=
  match pts with
  | [] => []
  | p :: rest => fround (x p) :: fround (y p) :: encode rest
  end.

(** Row [r] of the bank: [2 * pointsPerStroke] consecutive cells. *)
Definition row (m : StrokeTextureManager) (r : nat) : list num :=
  let w := Z.to_nat (pointsPerStroke m * 2) in
  take w (drop (r * w)%nat (textureData m)).

(** What the constructor establishes and every operation keeps. *)
Definition bank_ok (m : StrokeTextureManager) : Prop :=
  maxStrokes m = DRAWING_CONSTANTS.MAX_STROKES /\
  pointsPerStroke m = DRAWING_CONSTANTS.POINTS_PER_STROKE /\
  length_Z (textureData m) = (maxStrokes m * pointsPerStroke m * 2)%Z.




(** *** Notions for the statements about [uploadStrokes] *)

(** An entry passes the two guards of the loop: neither comparison on its
    index holds and it has exactly [pointsPerStroke] points.  For an index
    that is an integer this says that the index is a row of the bank; it
    also holds of an index that is NaN. *)
Definition applicable (e : StrokeEntry) : bool :=
  negb (num_lt (index e) (ofZ 0)
        || num_ge (index e) (ofZ DRAWING_CONSTANTS.MAX_STROKES))
  && (length_Z (points e) =? DRAWING_CONSTANTS.POINTS_PER_STROKE)%Z.

(** The warning printed for an entry that does not pass them. *)
Definition warningFor (e : StrokeEntry) : BankWarning :=
  if num_lt (index e) (ofZ 0)
     || num_ge (index e) (ofZ DRAWING_CONSTANTS.MAX_STROKES)
  then SkippingOutOfRange (index e) DRAWING_CONSTANTS.MAX_STROKES
  else SkippingPointCount (index e) (length_Z (points e))
         DRAWING_CONSTANTS.POINTS_PER_STROKE.

(** The entries of a batch that pass the guards and address row [r]. *)
Definition entriesFor (r : nat) (batch : list StrokeEntry) : list StrokeEntry :=
  filter (fun e => applicable e && num_eq (index e) (ofZ (Z.of_nat r)) = true)
    batch.

(** A batch all of whose indices are integers. *)
Definition integerIndices (batch : list StrokeEntry) : Prop :=
  Forall (fun e => exists z : Z, index e = ofZ z) batch.

End Bank.

(* ===================================================================== *)
(** ** The stroke normalizer ([strokeInterpolator.ts]) *)
(* ===================================================================== *)

Module StrokeInterpolator.

(** A point of a source stroke, in drawing-space coordinates. *)
Record SourcePoint : Type := mkSourcePoint {
  sx : Q;
  sy : Q;
  st : Q;
}.

Inductive NormalizeError : Type :=
| DegenerateStrokeError.

Definition NORMALIZED_POINT_COUNT : nat := 1024.

Section Normalizer.

(** The distance below which points count as coincident, and the square
    root used for segment lengths; the design document fixes neither. *)
Variable epsilon : Q.
Variable sqrt : Q -> Q.

Definition position (p : SourcePoint) : Q * Q := (sx p, sy p).

Definition same_position (p q : Q * Q) : bool :=
  Qeq_bool (fst p) (fst q) && Qeq_bool (snd p) (snd q).

Definition dist2 (p q : Q * Q) : Q :=
  (fst p - fst q) * (fst p - fst q) + (snd p - snd q) * (snd p - snd q).

Definition distance (p q : Q * Q) : Q := sqrt (dist2 p q).

(** Modelled from the spec: "degenerate input (all points within epsilon
    distance)"; the comparison is made on squared distances. *)
Definition degenerate (ps : list (Q * Q)) : bool :=
  forallb (fun p => forallb (fun q => Qle_bool (dist2 p q) (epsilon * epsilon)) ps) ps.

(** Modelled from the spec: "collapse consecutive duplicate points". *)
Fixpoint collapse (ps : list (Q * Q)) : list (Q * Q) :=
  match ps with
  | [] => []
  | p :: rest =>
      match rest with
      | [] => [p]
      | q :: _ => if same_position p q then collapse rest else p :: collapse rest
      end
  end.

(** Modelled from the spec: "cumulative arc length L_i over the cleaned
    polyline", [L_0 = 0]. *)
Fixpoint cumulative (acc : Q) (prev : Q * Q) (rest : list (Q * Q)) : list Q :=
  match rest with
  | [] => []
  | p :: rest' =>
      let acc' := acc + distance prev p in
      acc' :: cumulative acc' p rest'
  end.

Definition arcLengths (cleaned : list (Q * Q)) : list Q :=
  match cleaned with
  | [] => []
  | p :: rest => 0 :: cumulative 0 p rest
  end.

Definition totalLength (lengths : list Q) : Q := List.last lengths 0.

(** Modelled from the spec: "locate the bracketing source segment
    [L_i, L_i+1] containing u"; [upper] lists [L_i+1, L_i+2, ...].  The last
    segment is the answer when no earlier one contains [u]. *)
Fixpoint locate (u : Q) (i : nat) (upper : list Q) : nat :=
  match upper with
  | [] => i
  | l :: rest =>
      if Qle_bool u l then i
      else match rest with
           | [] => i
           | _ :: _ => locate u (S i) rest
           end
  end.

(** Modelled from the spec: "a smooth local spline fit (e.g., Catmull-Rom
    through the four nearest source points)", one coordinate. *)
Definition catmullRom (p0 p1 p2 p3 s : Q) : Q :=
  (1 # 2) * (2 * p1
             + (- p0 + p2) * s
             + (2 * p0 - 5 * p1 + 4 * p2 - p3) * (s * s)
             + (- p0 + 3 * p1 - 3 * p2 + p3) * (s * s * s)).

Definition pointAt (cleaned : list (Q * Q)) (i : nat) : Q * Q :=
  nth (Nat.min i (length cleaned - 1)) cleaned (0, 0).

(** The position at arc length [u] along the cleaned polyline. *)
Definition sampleAt (cleaned : list (Q * Q)) (lengths : list Q) (u : Q)
    : Q * Q :=
  let i := locate u 0 (tail lengths) in
  let l0 := nth i lengths 0 in
  let l1 := nth (S i) lengths 0 in
  let s := (u - l0) / (l1 - l0) in
  let p0 := pointAt cleaned (i - 1) in
  let p1 := pointAt cleaned i in
  let p2 := pointAt cleaned (i + 1) in
  let p3 := pointAt cleaned (i + 2) in
  (catmullRom (fst p0) (fst p1) (fst p2) (fst p3) s,
   catmullRom (snd p0) (snd p1) (snd p2) (snd p3) s).

(** Output sample [j]: target length [u_j = j / (N - 1) * L_total] and
    [t_j = j / (N - 1)]. *)
Definition parameterOf (j : nat) : Q :=
  inject_Z (Z.of_nat j) / inject_Z (Z.of_nat (NORMALIZED_POINT_COUNT - 1)).

Definition sample (cleaned : list (Q * Q)) (lengths : list Q) (j : nat)
    : StrokePoint :=
  let u := parameterOf j * totalLength lengths in
  let p := sampleAt cleaned lengths u in
  mkStrokePoint (Finite (fst p)) (Finite (snd p)) (Finite (parameterOf j)).

(** Modelled from the spec: [normalizeStroke] as section 4.1 of the design
    document describes it; [strokeInterpolator.ts] itself is not among the
    sources, only its caller [setupStrokeData] is. *)
Definition normalizeStroke (stroke : list SourcePoint)
    : list StrokePoint + NormalizeError :=
  let ps := map position stroke in
  if degenerate ps then inr DegenerateStrokeError
  else
    let cleaned := collapse ps in
    let lengths := arcLengths cleaned in
    inl (map (sample cleaned lengths) (seq 0 NORMALIZED_POINT_COUNT)).

End Normalizer.

(** Adjacent [t] values never decrease. *)
Fixpoint nondecreasing_t (prev : num) (rest : list StrokePoint) : bool :=
  match rest with
  | [] => true
  | p :: rest' => num_le prev (t p) && nondecreasing_t (t p) rest'
  end.

(** Modelled from the spec: [validateNormalizedStroke] checks "exactly N
    points, all coordinates finite, t strictly nondecreasing from 0 to 1". *)
Definition validateNormalizedStroke (pts : list StrokePoint) : bool :=
  Nat.eqb (length pts) NORMALIZED_POINT_COUNT
  && forallb (fun p => isFinite (x p) && isFinite (y p)) pts
  && match pts with
     | [] => false
     | first :: rest =>
         num_eq (t first) (Finite 0)
         && nondecreasing_t (t first) rest
         && num_eq (t (List.last pts first)) (Finite 1)
     end.

End StrokeInterpolator.

(* ===================================================================== *)
(** ** WGSL / GLSL built-ins used by the kernels *)
(* ===================================================================== *)

Module Wgsl.

(** [clamp(x, lo, hi) = min(max(x, lo), hi)]. *)
Definition clamp (x lo hi : Q) : Q := Qmin (Qmax x lo) hi.

(** [mix(a, b, t) = a * (1 - t) + b * t]. *)
Definition mix (a b t : Q) : Q := a * (1 - t) + b * t.

End Wgsl.

(** The reveal wavefront, [example_drawing_compute.glsl] and the WGSL port:
    [clamp((phase - 1 + pct * (1 + e)) / e, 0, 1)]. *)
Definition phaser (pct phase e : Q) : Q :=
  Wgsl.clamp ((phase - 1 + pct * (1 + e)) / e) 0 1.

(* ===================================================================== *)
(** ** The stroke-animation compute shader ([strokeAnimation.wgsl]) *)
(* ===================================================================== *)

Module StrokeAnimation.

Record vec2 : Type := mkvec2 { vx : Q; vy : Q }.

Record vec4 : Type := mkvec4 { v0 : Q; v1 : Q; v2 : Q; v3 : Q }.

Record LaunchConfig : Type := mkLaunchConfig {
  strokeAIndex : Q;
  strokeBIndex : Q;
  interpolationT : Q;
  totalDuration : Q;

  elapsedTime : Q;
  startPointX : Q;
  startPointY : Q;
  scale : Q;

  active : Q;
  phase : Q;
  reserved1 : Q;
  reserved2 : Q;
}.

Record GlobalParams : Type := mkGlobalParams {
  time : Q;
  canvasWidth : Q;
  canvasHeight : Q;
  maxAnimations : Q;
  deltaTime : Q;
  padding1 : Q;
  padding2 : Q;
  padding3 : Q;
}.

(** The five bindings of group 0.  The texture together with its sampler is
    the function from a texture coordinate to the sampled [.rg] pair at
    level 0. *)
Record Bindings : Type := mkBindings {
  instanceMatrices : list vec4;
  launchConfigs : list LaunchConfig;
  globalParams : GlobalParams;
  strokeTexture : vec2 -> vec2;
}.

Definition set_instanceMatrices (b : Bindings) (ms : list vec4) : Bindings :=
  mkBindings ms (launchConfigs b) (globalParams b) (strokeTexture b).

Definition set_launchConfigs (b : Bindings) (cs : list LaunchConfig)
    : Bindings :=
  mkBindings (instanceMatrices b) cs (globalParams b) (strokeTexture b).

(** [u32] arithmetic wraps modulo 2^32. *)
Definition u32_modulus : Z := 2 ^ 32.
Definition u32_mul (a b : Z) : Z := ((a * b) mod u32_modulus)%Z.
Definition u32_add (a b : Z) : Z := ((a + b) mod u32_modulus)%Z.

(** [u32(f)] for an [f32]: truncation, clamped to the range of [u32]. *)
Definition u32_of_f32 (f : Q) : Z :=
  Z.min (u32_modulus - 1) (Z.max 0 (Qfloor f)).

(** [f32(u)] for a [u32]. *)
Definition f32_of_u32 (u : Z) : Q := inject_Z u.

Definition Qleb (a b : Q) : bool := Qle_bool a b.

(** A store into a storage array; outside the array it has no effect. *)
Definition store {A} (buf : list A) (i : Z) (v : A) : list A :=
  <[Z.to_nat i := v]> buf.

Definition zeroConfig : LaunchConfig :=
  mkLaunchConfig 0 0 0 0 0 0 0 0 0 0 0 0.

(** A load from a storage array; outside the array it yields zeros. *)
Definition loadConfig (buf : list LaunchConfig) (i : Z) : LaunchConfig :=
  default zeroConfig (buf !! Z.to_nat i).

Definition sampleStroke (b : Bindings) (strokeIndex : Z) (phase : Q) : vec2 :=
  let textureCoord := mkvec2 phase (f32_of_u32 strokeIndex / 64) in
  strokeTexture b textureCoord.

Definition transformToCanvas (strokePoint : vec2) (config : LaunchConfig)
    : vec2 :=
  mkvec2 (startPointX config + vx strokePoint * scale config)
         (startPointY config + vy strokePoint * scale config).

Definition canvasToNDC (canvasPos : vec2) (canvasWidth canvasHeight : Q)
    : vec2 :=
  let aspectRatio := canvasWidth / canvasHeight in
  let ndcX := ((vx canvasPos / canvasWidth) * 2 - 1) * aspectRatio in
  let ndcY := - ((vy canvasPos / canvasHeight) * 2 - 1) in
  mkvec2 ndcX ndcY.

Definition mix2 (a b : vec2) (t : Q) : vec2 :=
  mkvec2 (Wgsl.mix (vx a) (vx b) t) (Wgsl.mix (vy a) (vy b) t).

Definition buildTransformMatrix (instanceIndex : Z) (position : vec2)
    (scale : Q) (b : Bindings) : Bindings :=
  let base := u32_mul instanceIndex 4 in
  let ms := instanceMatrices b in
  let ms := store ms (u32_add base 0) (mkvec4 scale 0 0 0) in
  let ms := store ms (u32_add base 1) (mkvec4 0 scale 0 0) in
  let ms := store ms (u32_add base 2) (mkvec4 0 0 1 0) in
  let ms := store ms (u32_add base 3) (mkvec4 (vx position) (vy position) 0 1) in
  set_instanceMatrices b ms.

(** The translation row a hidden instance is given. *)
Definition offscreen : vec4 := mkvec4 (-10000) 0 0 1.

Definition setInactiveInstance (instanceIndex : Z) (b : Bindings) : Bindings :=
  let base := u32_mul instanceIndex 4 in
  set_instanceMatrices b (store (instanceMatrices b) (u32_add base 3) offscreen).

(** *** Entry point of section 5.1: one invocation per animation *)
Module PerAnimation.

Definition main (id_x : Z) (b : Bindings) : Bindings :=
  let animationIndex := id_x in
  if (animationIndex >=? u32_of_f32 (maxAnimations (globalParams b)))%Z then b
  else
    let config := loadConfig (launchConfigs b) animationIndex in
    if Qltb (active config) 0.5 then setInactiveInstance animationIndex b
    else
      (* config.phase = clamp(elapsedTime / totalDuration, 0, 1);
         config.elapsedTime += deltaTime *)
      let phase' :=
        Wgsl.clamp (elapsedTime config / totalDuration config) 0 1 in
      let elapsedTime' := elapsedTime config + deltaTime (globalParams b) in
      let config :=
        mkLaunchConfig (strokeAIndex config) (strokeBIndex config)
          (interpolationT config) (totalDuration config)
          elapsedTime' (startPointX config) (startPointY config)
          (scale config)
          (active config) phase' (reserved1 config) (reserved2 config) in
      if Qleb 1 (phase config) then
        let config :=
          mkLaunchConfig (strokeAIndex config) (strokeBIndex config)
            (interpolationT config) (totalDuration config)
            (elapsedTime config) (startPointX config) (startPointY config)
            (scale config)
            0 (phase config) (reserved1 config) (reserved2 config) in
        let b := setInactiveInstance animationIndex b in
        set_launchConfigs b (store (launchConfigs b) animationIndex config)
      else
        let strokeAIndex := u32_of_f32 (strokeAIndex config) in
        let strokeBIndex := u32_of_f32 (strokeBIndex config) in
        let strokePointA := sampleStroke b strokeAIndex (phase config) in
        let strokePointB := sampleStroke b strokeBIndex (phase config) in
        let interpolatedPoint :=
          mix2 strokePointA strokePointB (interpolationT config) in
        let canvasPos := transformToCanvas interpolatedPoint config in
        let ndc :=
          canvasToNDC canvasPos (canvasWidth (globalParams b))
            (canvasHeight (globalParams b)) in
        let b := buildTransformMatrix animationIndex ndc (scale config) b in
        set_launchConfigs b (store (launchConfigs b) animationIndex config).

End PerAnimation.

(** *** Entry point of section 5.2: one invocation per (stroke, point) *)
Module PerPoint.

Definition POINTS_PER_STROKE : Z := 1024.

(** The base marker size and the reveal threshold of the kernel. *)
Definition markerSize : Q := 0.003.
Definition revealThreshold : Q := 0.001.

(** [clamp(phaser(config.phase, pointProgress, 1.0), 0.0, 0.9999)]. *)
Definition reveal (config : LaunchConfig) (pointIndex : Z) : Q :=
  let pointProgress := f32_of_u32 pointIndex / f32_of_u32 POINTS_PER_STROKE in
  Wgsl.clamp (phaser (phase config) pointProgress 1) 0 0.9999.

Definition main (globalId_x : Z) (b : Bindings) : Bindings :=
  let globalIndex := globalId_x in
  let strokeIndex := (globalIndex / POINTS_PER_STROKE)%Z in
  let pointIndex := (globalIndex mod POINTS_PER_STROKE)%Z in
  if (strokeIndex >=? u32_of_f32 (maxAnimations (globalParams b)))%Z then b
  else
    let config := loadConfig (launchConfigs b) strokeIndex in
    if Qltb (active config) 0.5 then setInactiveInstance globalIndex b
    else
      let pointProgress :=
        f32_of_u32 pointIndex / f32_of_u32 POINTS_PER_STROKE in
      let phaseVal :=
        Wgsl.clamp (phaser (phase config) pointProgress 1) 0 0.9999 in
      if Qleb phaseVal 0.001 then setInactiveInstance globalIndex b
      else
        let strokePointA :=
          sampleStroke b (u32_of_f32 (strokeAIndex config)) pointProgress in
        let strokePointB :=
          sampleStroke b (u32_of_f32 (strokeBIndex config)) pointProgress in
        let interpolatedPoint :=
          mix2 strokePointA strokePointB (interpolationT config) in
        let canvasPos := transformToCanvas interpolatedPoint config in
        let ndc :=
          canvasToNDC canvasPos (canvasWidth (globalParams b))
            (canvasHeight (globalParams b)) in
        let instanceIndex := globalIndex in
        let pointScale := markerSize * phaseVal in
        buildTransformMatrix instanceIndex ndc pointScale b.

End PerPoint.

End StrokeAnimation.

(* ===================================================================== *)
(** ** The scene ([drawingScene.ts]) *)
(* ===================================================================== *)

Module DrawingScene.

Definition maxAnimations : Z := DRAWING_CONSTANTS.MAX_ANIMATIONS.
Definition pointsPerStroke : Z := DRAWING_CONSTANTS.POINTS_PER_STROKE.
Definition maxInstances : Z := maxAnimations * pointsPerStroke.

(** [setupCamera]: the orthographic bounds of the view. *)
Definition aspectRatio : Q :=
  inject_Z DRAWING_CONSTANTS.CANVAS_WIDTH
  / inject_Z DRAWING_CONSTANTS.CANVAS_HEIGHT.
Definition orthoLeft : Q := - aspectRatio.
Definition orthoRight : Q := aspectRatio.
Definition orthoTop : Q := 1.
Definition orthoBottom : Q := -1.

(** A position is drawable when it lies within the orthographic bounds. *)
Definition inView (px py : Q) : Prop :=
  orthoLeft <= px <= orthoRight /\ orthoBottom <= py <= orthoTop.

(** [setupComputeShader]: the global parameters as first written
    ([time] and [deltaTime] are refreshed every frame). *)
Definition globalParams (time deltaTime : Q) : StrokeAnimation.GlobalParams :=
  StrokeAnimation.mkGlobalParams time
    (inject_Z DRAWING_CONSTANTS.CANVAS_WIDTH)
    (inject_Z DRAWING_CONSTANTS.CANVAS_HEIGHT)
    (inject_Z maxAnimations) deltaTime 0 0 0.

(** [startRenderLoop]: the size of the dispatch.  [Math.ceil] of the
    quotient of two positive integers. *)
Definition totalThreads : Z := maxAnimations * pointsPerStroke.
Definition workgroupSize : Z := DRAWING_CONSTANTS.WORKGROUP_SIZE.
Definition workgroups : Z :=
  (totalThreads + workgroupSize - 1) / workgroupSize.

(** The invocations of one dispatch, in the order of their global index;
    the entry point is applied to each. *)
Definition dispatchedIndices : list Z :=
  map Z.of_nat (seq 0 (Z.to_nat (workgroups * workgroupSize))).

End DrawingScene.

(* ===================================================================== *)
(** ** Notions used by the statements, and sample data *)
(* ===================================================================== *)

(** What the first loop of [validateStrokeData] accepts of one point. *)
Definition pointAccepted (p : StrokePoint) : Prop :=
  isFinite (x p) = true /\ isFinite (y p) = true
  /\ num_lt (t p) (Finite 0) = false /\ num_gt (t p) (Finite 1) = false.

(** What its second loop accepts: no point has a [t] below its
    predecessor's. *)
Definition noDecrease (pts : list StrokePoint) : Prop :=
  forall (i : nat) p q, pts !! i = Some p -> pts !! S i = Some q ->
                num_lt (t q) (t p) = false.

(** The identity, which is what the conversion to single precision does on
    the numbers single precision represents exactly; the instances below
    use such numbers only. *)
Definition fround_exact (v : num) : num := v.

Definition unitPoint : StrokePoint :=
  mkStrokePoint (Finite 1) (Finite (1 # 2)) (Finite 0).

(** A batch with an index out of range, a stroke of one point, and a
    well-formed entry. *)
Definition sampleBatch : list StrokeEntry :=
  [ mkStrokeEntry (ofZ 64) (replicate (Z.to_nat 1024) unitPoint);
    mkStrokeEntry (ofZ 2) [unitPoint];
    mkStrokeEntry (ofZ 7) (replicate (Z.to_nat 1024) unitPoint) ].

(** 1024 points at the origin whose [t] is NaN. *)
Definition nanStroke : list StrokePoint :=
  replicate (Z.to_nat 1024) (mkStrokePoint (Finite 0) (Finite 0) NaN).

(** 1024 points at the origin that all carry [t = 1/2]. *)
Definition constantTStroke : list StrokePoint :=
  replicate (Z.to_nat 1024) (mkStrokePoint (Finite 0) (Finite 0) (Finite (1 # 2))).

(** An active record half-way through its animation. *)
Definition sampleConfig : StrokeAnimation.LaunchConfig :=
  StrokeAnimation.mkLaunchConfig 0 1 (1 # 2) 2 1 640 360 1 1 (1 # 2) 0 0.

(** Bindings as the scene sets them up, with [n] records like the one
    above and a texture that is zero everywhere. *)
Definition sampleBindings (n : nat) : StrokeAnimation.Bindings :=
  StrokeAnimation.mkBindings
    (replicate 16 (StrokeAnimation.mkvec4 0 0 0 0)) (replicate n sampleConfig)
    (DrawingScene.globalParams 1 (1 # 60))
    (fun _ => StrokeAnimation.mkvec2 0 0).

(** A square root to three decimals. *)
Definition sqrtApprox (q : Q) : Q :=
  inject_Z (Z.sqrt (Qfloor (q * 1000000))) / 1000.

(** The segment from (0, 0) to (3, 4). *)
Definition segmentStroke : list StrokeInterpolator.SourcePoint :=
  [ StrokeInterpolator.mkSourcePoint 0 0 0;
    StrokeInterpolator.mkSourcePoint 3 4 1 ].

(* ===================================================================== *)
(** ** Further code of the same files *)
(* ===================================================================== *)

(** *** [strokeTextureManager.ts]: the two getters *)

Record TextureDimensions : Type := mkTextureDimensions {
  width : Z;
  height : Z;
}.

Definition getTextureDimensions (m : StrokeTextureManager) : TextureDimensions :=
  mkTextureDimensions (pointsPerStroke m) (maxStrokes m).

Record MemoryInfo : Type := mkMemoryInfo {
  totalBytes : Z;
  usedBytes : Z;
  bytesPerStroke : Z;
}.

(** [bytesPerStroke] counts 2 half-floats of 2 bytes per point. *)
Definition getMemoryInfo (m : StrokeTextureManager) : MemoryInfo :=
  let bytesPerStroke := (pointsPerStroke m * 2 * 2)%Z in
  let totalBytes := (maxStrokes m * bytesPerStroke)%Z in
  mkMemoryInfo totalBytes totalBytes bytesPerStroke.

(** *** [drawingScene.ts]: the matrix buffer *)

Module SceneBuffers.

(** [setupMaterials]: the storage buffer holds [maxInstances * MATRIX_SIZE]
    bytes; the kernel sees it as an array of [vec4<f32>], 16 bytes each. *)
Definition matrixBufferBytes : Z :=
  DrawingScene.maxInstances * DRAWING_CONSTANTS.MATRIX_SIZE.

Definition matrixBufferVec4s : Z := matrixBufferBytes / 16.

End SceneBuffers.

(** *** The stores of one invocation of the per-point entry point *)

Module UnitWrites.

Import StrokeAnimation.

(** The stores of [setInactiveInstance] and of [buildTransformMatrix], as
    (index, value) pairs in the order they are made. *)
Definition hideWrites (instanceIndex : Z) : list (Z * vec4) :=
  let base := u32_mul instanceIndex 4 in
  [ (u32_add base 3, offscreen) ].

Definition transformWrites (instanceIndex : Z) (position : vec2) (scale : Q)
    : list (Z * vec4) :=
  let base := u32_mul instanceIndex 4 in
  [ (u32_add base 0, mkvec4 scale 0 0 0);
    (u32_add base 1, mkvec4 0 scale 0 0);
    (u32_add base 2, mkvec4 0 0 1 0);
    (u32_add base 3, mkvec4 (vx position) (vy position) 0 1) ].

(** The stores [PerPoint.main] makes, read off its branches; they depend on
    the record buffer, the parameters and the texture only. *)
Definition unitWrites (globalIndex : Z) (b : Bindings) : list (Z * vec4) :=
  let strokeIndex := (globalIndex / PerPoint.POINTS_PER_STROKE)%Z in
  let pointIndex := (globalIndex mod PerPoint.POINTS_PER_STROKE)%Z in
  if (strokeIndex >=? u32_of_f32 (maxAnimations (globalParams b)))%Z then []
  else
    let config := loadConfig (launchConfigs b) strokeIndex in
    if Qltb (active config) 0.5 then hideWrites globalIndex
    else
      let pointProgress :=
        f32_of_u32 pointIndex / f32_of_u32 PerPoint.POINTS_PER_STROKE in
      let phaseVal := PerPoint.reveal config pointIndex in
      if Qleb phaseVal 0.001 then hideWrites globalIndex
      else
        let strokePointA :=
          sampleStroke b (u32_of_f32 (strokeAIndex config)) pointProgress in
        let strokePointB :=
          sampleStroke b (u32_of_f32 (strokeBIndex config)) pointProgress in
        let interpolatedPoint :=
          mix2 strokePointA strokePointB (interpolationT config) in
        let canvasPos := transformToCanvas interpolatedPoint config in
        let ndc :=
          canvasToNDC canvasPos (canvasWidth (globalParams b))
            (canvasHeight (globalParams b)) in
        transformWrites globalIndex ndc (PerPoint.markerSize * phaseVal).

(** Making a list of stores, first to last. *)
Definition applyWrites (ws : list (Z * vec4)) (ms : list vec4) : list vec4 :=
  foldl (fun acc w => store acc (fst w) (snd w)) ms ws.

End UnitWrites.

(** *** [example_drawing_compute.glsl]: remapping and gesture blending *)

Module ExampleDrawingCompute.

Definition MAX_GESTURES : Q := 10.

(** GLSL [mod(x, y) = x - y * floor(x / y)]. *)
Definition glsl_mod (a b : Q) : Q := a - b * inject_Z (Qfloor (a / b)).

Definition glsl_floor (a : Q) : Q := inject_Z (Qfloor a).

(** [float map(value, min1, max1, min2, max2)]. *)
Definition map (value min1 max1 min2 max2 : Q) : Q :=
  min2 + (value - min1) * (max2 - min2) / (max1 - min1).

Section Uniforms.

(** The uniforms [cam_frustum_size] and [gestureDims.y], and the gesture
    texture [sTD2DInputs[GESTURES]] as the function from a coordinate to
    the sampled [xyz]. *)
Variable cam_frustum_size : Q * Q.
Variable gestureDims_y : Q.
Variable gestures : Q * Q -> Q * Q * Q.

Definition frustumPos_to_uv (frustumPos : Q * Q) : Q * Q :=
  let mapX :=
    Wgsl.clamp (map (fst frustumPos) (- fst cam_frustum_size / 2)
                  (fst cam_frustum_size / 2) 0 1) 0 1 in
  let mapY :=
    Wgsl.clamp (map (snd frustumPos) (- snd cam_frustum_size / 2)
                  (snd cam_frustum_size / 2) 0 1) 0 1 in
  (mapX, mapY).

Definition vec3_sub (a b : Q * Q * Q) : Q * Q * Q :=
  (fst (fst a) - fst (fst b), snd (fst a) - snd (fst b), snd a - snd b).

Definition vec3_mix (a b : Q * Q * Q) (m : Q) : Q * Q * Q :=
  (Wgsl.mix (fst (fst a)) (fst (fst b)) m,
   Wgsl.mix (snd (fst a)) (snd (fst b)) m,
   Wgsl.mix (snd a) (snd b) m).

Definition SampleGesture (gestureInd phaseVal : Q) : Q * Q * Q :=
  let gestureRow := glsl_mod gestureInd gestureDims_y / gestureDims_y in
  let pos := gestures (phaseVal, gestureRow) in
  let gestureStart := gestures (0, gestureRow) in
  vec3_sub pos gestureStart.

Definition SampleBlend (mixPair mixVal phaseVal : Q) : Q * Q * Q :=
  let ind1 := glsl_mod mixPair MAX_GESTURES in
  let ind2 := glsl_floor (mixPair / MAX_GESTURES) in
  vec3_mix (SampleGesture ind1 phaseVal) (SampleGesture ind2 phaseVal) mixVal.

End Uniforms.

(** Equality of two [vec3] values, component by component. *)
Definition vec3_eq (a b : Q * Q * Q) : Prop :=
  fst (fst a) == fst (fst b) /\ snd (fst a) == snd (fst b) /\ snd a == snd b.

End ExampleDrawingCompute.

(** *** [strokeDataGenerator.ts]: the square *)

Module StrokeDataGenerator.

Record BoundingBox : Type := mkBoundingBox {
  minX : Q;
  maxX : Q;
  minY : Q;
  maxY : Q;
}.

(** A generated stroke; the [id] string is left out. *)
Record Stroke : Type := mkStroke {
  strokePoints : list StrokePoint;
  boundingBox : BoundingBox;
}.

Definition ofNat (n : nat) : Q := inject_Z (Z.of_nat n).

(** [currentPoint / (pointCount - 1)], also used with [points.length] for
    the numerator. *)
Definition tAt (k pointCount : nat) : Q :=
  ofNat k / inject_Z (Z.of_nat pointCount - 1).

(** One of the four [for] loops: [indices] lists the values [i] takes, [place]
    gives the position for [progress = i / pointsPerSide]; the state is the
    array [points] and the counter [currentPoint]. *)
Fixpoint edgeLoop (place : Q -> Q * Q) (pointsPerSide pointCount : nat)
    (indices : list nat) (st : list StrokePoint * nat)
    : list StrokePoint * nat :=
  match indices with
  | [] => st
  | i :: rest =>
      let progress := ofNat i / ofNat pointsPerSide in
      let point :=
        mkStrokePoint (Finite (fst (place progress)))
          (Finite (snd (place progress)))
          (Finite (tAt (snd st) pointCount)) in
      edgeLoop place pointsPerSide pointCount rest
        (fst st ++ [point], S (snd st))
  end.

(** [while (points.length < pointCount)]: each round appends a copy of the
    last point with [t = points.length / (pointCount - 1)]; [rounds] bounds
    the number of rounds.  Reading the last point of an empty array would
    throw; the loop then stops here. *)
Fixpoint padLoop (rounds pointCount : nat) (pts : list StrokePoint)
    : list StrokePoint :=
  match rounds with
  | O => pts
  | S rounds' =>
      if (length pts <? pointCount)%nat then
        match last pts with
        | Some lastPoint =>
            padLoop rounds' pointCount
              (pts ++ [mkStrokePoint (x lastPoint) (y lastPoint)
                         (Finite (tAt (length pts) pointCount))])
        | None => pts
        end
      else pts
  end.

Definition extra (b : bool) : nat := if b then 1%nat else 0%nat.

(** [generateSquare(size, pointCount)], in exact arithmetic.  The divisions
    by [pointsPerSide] and by [pointCount - 1] are by zero only when
    [pointCount < 4]. *)
Definition generateSquare (size : Q) (pointCount : nat) : Stroke :=
  let halfSize := size / 2 in
  let pointsPerSide := (pointCount / 4)%nat in
  let remainder := (pointCount mod 4)%nat in
  let st := ([], 0%nat) in
  (* top edge, left to right *)
  let st :=
    edgeLoop (fun progress => (- halfSize + progress * size, - halfSize))
      pointsPerSide pointCount
      (seq 0 (pointsPerSide + extra (0 <? remainder)%nat)) st in
  (* right edge, top to bottom *)
  let st :=
    edgeLoop (fun progress => (halfSize, - halfSize + progress * size))
      pointsPerSide pointCount
      (seq 1 (pointsPerSide + extra (1 <? remainder)%nat - 1)) st in
  (* bottom edge, right to left *)
  let st :=
    edgeLoop (fun progress => (halfSize - progress * size, halfSize))
      pointsPerSide pointCount
      (seq 1 (pointsPerSide + extra (2 <? remainder)%nat - 1)) st in
  (* left edge, bottom to top *)
  let st :=
    edgeLoop (fun progress => (- halfSize, halfSize - progress * size))
      pointsPerSide pointCount
      (seq 1 (pointsPerSide - 1)) st in
  let pts := padLoop pointCount pointCount (fst st) in
  mkStroke (take pointCount pts)
    (mkBoundingBox (- halfSize) halfSize (- halfSize) halfSize).

(** A point with finite coordinates that satisfy [P]. *)
Definition positioned (P : Q -> Q -> Prop) (p : StrokePoint) : Prop :=
  exists qx qy : Q, x p = Finite qx /\ y p = Finite qy /\ P qx qy.

Definition inBox (bb : BoundingBox) (qx qy : Q) : Prop :=
  minX bb <= qx <= maxX bb /\ minY bb <= qy <= maxY bb.

End StrokeDataGenerator.

(* ===================================================================== *)
(** ** Properties of the reveal wavefront *)
(* ===================================================================== *)

Section PhaserFacts.

Lemma clamp_mono (x y lo hi : Q) :
  x <= y -> Wgsl.clamp x lo hi <= Wgsl.clamp y lo hi.
Proof.
  intros Hxy. unfold Wgsl.clamp.
  apply Q.min_le_compat_r, Q.max_le_compat_r, Hxy.
Qed.

Lemma clamp_unit_top (x : Q) : Wgsl.clamp x 0 1 == 1 <-> 1 <= x.
Proof.
  unfold Wgsl.clamp. rewrite Q.min_r_iff, Q.max_le_iff.
  split; [intros [H | H]; [exact H | lra] | now left].
Qed.


(** The ramp before clamping is nondecreasing in [phase] when [0 < e]. *)
Lemma ramp_mono (pct p1 p2 e : Q) :
  0 < e -> p1 <= p2 ->
  (p1 - 1 + pct * (1 + e)) / e <= (p2 - 1 + pct * (1 + e)) / e.
Proof.
  intros He Hp. unfold Qdiv.
  apply Qmult_le_compat_r; [lra |].
  apply Qlt_le_weak, Qinv_lt_0_compat, He.
Qed.

End PhaserFacts.




(** C5: for a fixed [pct] and a fixed positive edge width [e] (the kernel
    uses [e = 1]), [phaser] is nondecreasing in [phase]. *)
Theorem phaser_monotone_in_phase (pct phase1 phase2 e : Q) :
  0 < e ->
  0 <= pct <= 1 -> 0 <= phase1 <= 1 -> 0 <= phase2 <= 1 ->
  phase1 <= phase2 ->
  phaser pct phase1 e <= phaser pct phase2 e.
Proof.
  intros He _ _ _ Hp. unfold phaser.
  apply clamp_mono, ramp_mono; assumption.
Qed.

Lemma phaser_monotone_in_phase_witness :
  phaser (1 # 2) (1 # 4) 1 <= phaser (1 # 2) (3 # 4) 1.
Proof.
  apply (phaser_monotone_in_phase (1 # 2) (1 # 4) (3 # 4) 1);
    try split; vm_compute; discriminate.
Defined.

(* ===================================================================== *)
(** ** Rounding and the arithmetic of the host *)
(* ===================================================================== *)

Section BinaryFacts.

Import Binary.

Local Open Scope Q_scope.

Lemma pow2_pos (k : Z) : 0 < pow2 k.
Proof. apply Qpower_0_lt. reflexivity. Qed.

Lemma pow2_add (a b : Z) : pow2 (a + b) == pow2 a * pow2 b.
Proof. apply Qpower_plus. discriminate. Qed.

Lemma pow2_Z (k : Z) : (0 <= k)%Z -> pow2 k == inject_Z (2 ^ k).
Proof. intros Hk. symmetry. apply (Zpower_Qpower 2 k Hk). Qed.


Lemma pow2_lt_inv (a b : Z) : pow2 a < pow2 b -> (a < b)%Z.
Proof. intros H. apply (Qpower_lt_compat_l_inv 2 a b H). reflexivity. Qed.

Lemma pow2_opp (a : Z) : pow2 a * pow2 (- a) == 1.
Proof. rewrite <- pow2_add, Z.add_opp_diag_r. reflexivity. Qed.

(** [binade a] is the exponent of the power of two at or below [a]. *)
Lemma binade_spec (a : Q) :
  0 < a -> pow2 (binade a) <= a < pow2 (binade a + 1).
Proof.
  intros Ha. destruct a as [p d]. unfold binade. cbn [Qnum Qden].
  assert (Hp : (0 < p)%Z).
  { unfold Qlt in Ha. cbn in Ha. lia. }
  set (lp := Z.log2 p). set (ld := Z.log2 (Zpos d)).
  destruct (Z.log2_spec p Hp) as [Hp1 Hp2]. fold lp in Hp1, Hp2.
  destruct (Z.log2_spec (Zpos d) eq_refl) as [Hd1 Hd2]. fold ld in Hd1, Hd2.
  assert (Hlp : (0 <= lp)%Z) by apply Z.log2_nonneg.
  assert (Hld : (0 <= ld)%Z) by apply Z.log2_nonneg.
  assert (Hq : (p # d) * inject_Z (Zpos d) == inject_Z p).
  { unfold Qeq, Qmult, inject_Z. cbn. lia. }
  assert (Hdpos : 0 < inject_Z (Zpos d)) by reflexivity.
  (* bounds of the numerator and the denominator by powers of two *)
  assert (Bp1 : pow2 lp <= inject_Z p)
    by (rewrite pow2_Z by lia; rewrite <- Zle_Qle; lia).
  assert (Bp2 : inject_Z p < pow2 (lp + 1))
    by (rewrite pow2_Z by lia; rewrite <- Zlt_Qlt; lia).
  assert (Bd1 : pow2 ld <= inject_Z (Zpos d))
    by (rewrite pow2_Z by lia; rewrite <- Zle_Qle; lia).
  assert (Bd2 : inject_Z (Zpos d) <= pow2 (ld + 1))
    by (rewrite pow2_Z by lia; rewrite <- Zle_Qle; lia).
  destruct (Qle_bool (pow2 (lp - ld)) (p # d)) eqn:E.
  - apply Qle_bool_iff in E. split; [exact E |].
    (* (p/d) * 2^ld <= p < 2^(lp+1) *)
    apply (Qmult_lt_r _ _ (pow2 ld) (pow2_pos ld)).
    rewrite <- pow2_add.
    replace (lp - ld + 1 + ld)%Z with (lp + 1)%Z by lia.
    eapply Qle_lt_trans; [| exact Bp2].
    rewrite <- Hq. apply Qmult_le_l; [exact Ha | exact Bd1].
  - assert (E' : (p # d) < pow2 (lp - ld)).
    { apply Qnot_le_lt. intros Hc. apply Qle_bool_iff in Hc. congruence. }
    split.
    + apply (Qmult_le_r _ _ (pow2 (ld + 1)) (pow2_pos _)).
      rewrite <- pow2_add.
      replace (lp - ld - 1 + (ld + 1))%Z with lp by lia.
      eapply Qle_trans; [exact Bp1 |].
      rewrite <- Hq. apply Qmult_le_l; [exact Ha | exact Bd2].
    + replace (lp - ld - 1 + 1)%Z with (lp - ld)%Z by lia. exact E'.
Qed.

Lemma nearestEven_int (v : Q) (n : Z) : v == inject_Z n -> nearestEven v = n.
Proof.
  intros Hv. unfold nearestEven.
  rewrite (Qfloor_comp v (inject_Z n) Hv), Qfloor_Z.
  assert (H : v - inject_Z n == 0) by (rewrite Hv; ring).
  rewrite (Qcompare_comp _ _ H _ _ (Qeq_refl (1 # 2))). reflexivity.
Qed.

(** Rounding to the nearest integer moves a number by at most one half. *)
Lemma nearestEven_error (v : Q) :
  Qabs (inject_Z (nearestEven v) - v) <= 1 # 2.
Proof.
  unfold nearestEven.
  pose proof (Qfloor_le v) as Hf. pose proof (Qlt_floor v) as Hc.
  rewrite inject_Z_plus in Hc. change (inject_Z 1) with 1 in Hc.
  set (f := Qfloor v) in *.
  apply Qabs_Qle_condition.
  destruct (Qcompare (v - inject_Z f) (1 # 2)) eqn:E.
  - apply Qeq_alt in E. destruct (Z.even f).
    + split; lra.
    + rewrite inject_Z_plus. change (inject_Z 1) with 1. split; lra.
  - apply Qlt_alt in E. split; lra.
  - apply Qgt_alt in E. rewrite inject_Z_plus. change (inject_Z 1) with 1.
    split; lra.
Qed.

Lemma nearestEven_le (v : Q) (m : Z) :
  v <= inject_Z m -> (nearestEven v <= m)%Z.
Proof.
  intros Hv. pose proof (nearestEven_error v) as He.
  apply Qabs_Qle_condition in He. destruct He as [_ He].
  assert (H : inject_Z (nearestEven v) < inject_Z (m + 1)).
  { rewrite inject_Z_plus. change (inject_Z 1) with 1. lra. }
  rewrite <- Zlt_Qlt in H. lia.
Qed.

Lemma nearestEven_nonneg (v : Q) : 0 <= v -> (0 <= nearestEven v)%Z.
Proof.
  intros Hv. pose proof (nearestEven_error v) as He.
  apply Qabs_Qle_condition in He. destruct He as [He _].
  assert (H : inject_Z (-1) < inject_Z (nearestEven v)).
  { change (inject_Z (-1)) with (-1). lra. }
  rewrite <- Zlt_Qlt in H. lia.
Qed.

Lemma Qred_inject_Z (z : Z) : Qred (inject_Z z) = inject_Z z.
Proof.
  pose proof (Qred_correct (inject_Z z)) as Hc.
  pose proof (gcd_Qred (inject_Z z)) as Hg.
  destruct (Qred (inject_Z z)) as [n d]. cbn [Qnum Qden] in *.
  unfold Qeq, inject_Z in Hc. cbn [Qnum Qden] in Hc.
  assert (Hn : n = (z * Zpos d)%Z) by lia.
  rewrite Hn, Z.gcd_comm, (Z.mul_comm z), Z.gcd_mul_diag_l in Hg by lia.
  assert (d = 1%positive) as -> by lia.
  unfold inject_Z. f_equal. lia.
Qed.

Lemma Qabs_inject_Z (n : Z) : Qabs (inject_Z n) == inject_Z (Z.abs n).
Proof. symmetry. apply (Zabs_Qabs n 1). Qed.

Lemma Qabs_pos_lt (q : Q) : ~ q == 0 -> 0 < Qabs q.
Proof.
  intros Hq. destruct (Qlt_le_dec 0 (Qabs q)) as [H | H]; [exact H |].
  exfalso. apply Hq. pose proof (Qabs_nonneg q) as H0.
  assert (Hz : Qabs q <= 0) by lra.
  apply Qabs_Qle_condition in Hz. lra.
Qed.

(** A number of at most [prec] significant bits, scaled by a power of two
    the format reaches and below the overflow threshold, is rounded to
    itself. *)
Lemma round_representable (prec emin emax : Z) (q : Q) (n s : Z) :
  q == inject_Z n * pow2 s -> (Z.abs n < 2 ^ prec)%Z -> (0 < prec)%Z ->
  (emin - (prec - 1) <= s)%Z -> Qabs q < pow2 (emax + 1) ->
  round prec emin emax q = Finite (Qred q).
Proof.
  intros Hq Hn Hprec Hs Hmax. unfold round.
  destruct (Qeq_bool q 0) eqn:E0.
  { apply Qeq_bool_iff in E0. rewrite (Qred_complete q 0 E0). reflexivity. }
  assert (Hq0 : ~ q == 0).
  { intros Hc. apply Qeq_bool_iff in Hc. congruence. }
  pose proof (Qabs_pos_lt q Hq0) as Ha.
  destruct (binade_spec (Qabs q) Ha) as [Hb1 Hb2].
  set (a := Qabs q) in *. set (b := binade a) in *.
  assert (Haq : a == inject_Z (Z.abs n) * pow2 s).
  { subst a. rewrite Hq, Qabs_Qmult, Qabs_inject_Z.
    rewrite (Qabs_pos (pow2 s)) by (apply Qlt_le_weak, pow2_pos). reflexivity. }
  assert (Hb : (b < prec + s)%Z).
  { apply pow2_lt_inv. eapply Qle_lt_trans; [exact Hb1 |].
    rewrite Haq, pow2_add. apply Qmult_lt_r; [apply pow2_pos |].
    rewrite pow2_Z by lia. rewrite <- Zlt_Qlt. exact Hn. }
  set (e := Z.max b emin).
  set (k := (s - (e - (prec - 1)))%Z).
  assert (Hk : (0 <= k)%Z) by lia.
  assert (Hdiv : a / pow2 (e - (prec - 1)) == inject_Z (Z.abs n * 2 ^ k)).
  { rewrite Haq, inject_Z_mult, <- (pow2_Z k Hk).
    replace s with (k + (e - (prec - 1)))%Z at 1 by lia.
    rewrite pow2_add. field.
    intros Hc. pose proof (pow2_pos (e - (prec - 1))) as Hp. lra. }
  rewrite (nearestEven_int _ _ Hdiv).
  assert (Hr : inject_Z (Z.abs n * 2 ^ k) * pow2 (e - (prec - 1)) == a).
  { rewrite <- Hdiv. field.
    intros Hc. pose proof (pow2_pos (e - (prec - 1))) as Hp. lra. }
  set (r := inject_Z (Z.abs n * 2 ^ k) * pow2 (e - (prec - 1))) in *.
  destruct (Qle_bool (pow2 (emax + 1)) r) eqn:Eover.
  { apply Qle_bool_iff in Eover. rewrite Hr in Eover. lra. }
  f_equal. apply Qred_complete.
  destruct (Qle_bool 0 q) eqn:Esign.
  - apply Qle_bool_iff in Esign. rewrite Hr. subst a. apply Qabs_pos. exact Esign.
  - assert (Hneg : q <= 0).
    { apply Qlt_le_weak, Qnot_le_lt. intros Hc.
      apply Qle_bool_iff in Hc. congruence. }
    rewrite Hr. subst a. rewrite (Qabs_neg q Hneg). ring.
Qed.


End BinaryFacts.

Section NumberFacts.

Import Binary.

Local Open Scope Z_scope.

(** Integers below [2^53] are doubles, and the host's arithmetic is exact
    on them. *)
Lemma binary64_integer (q : Q) (z : Z) :
  (q == inject_Z z)%Q -> Z.abs z < 2 ^ 53 -> binary64 q = ofZ z.
Proof.
  intros Hq Hz. unfold binary64.
  rewrite (round_representable 53 (-1022) 1023 q z 0).
  - unfold ofZ. f_equal.
    rewrite (Qred_complete q (inject_Z z) Hq). apply Qred_inject_Z.
  - rewrite Hq. change (pow2 0) with 1%Q. ring.
  - exact Hz.
  - lia.
  - lia.
  - rewrite Hq, Qabs_inject_Z, pow2_Z by lia. rewrite <- Zlt_Qlt.
    eapply Z.lt_trans; [exact Hz |]. apply Z.pow_lt_mono_r; lia.
Qed.

Lemma num_add_ofZ (a b : Z) :
  Z.abs (a + b) < 2 ^ 53 -> num_add (ofZ a) (ofZ b) = ofZ (a + b).
Proof.
  intros H. unfold num_add, ofZ. apply binary64_integer; [| exact H].
  rewrite inject_Z_plus. reflexivity.
Qed.

Lemma num_mul_ofZ (a b : Z) :
  Z.abs (a * b) < 2 ^ 53 -> num_mul (ofZ a) (ofZ b) = ofZ (a * b).
Proof.
  intros H. unfold num_mul, ofZ. apply binary64_integer; [| exact H].
  rewrite inject_Z_mult. reflexivity.
Qed.

Lemma num_lt_ofZ (a b : Z) : num_lt (ofZ a) (ofZ b) = (a <? b).
Proof.
  unfold num_lt, ofZ, Qltb, Qcompare, inject_Z, Z.ltb. cbn [Qnum Qden].
  rewrite !Z.mul_1_r. reflexivity.
Qed.

Lemma num_ge_ofZ (a b : Z) : num_ge (ofZ a) (ofZ b) = (b <=? a).
Proof.
  unfold num_ge, num_le, ofZ, Qle_bool, inject_Z. cbn [Qnum Qden].
  rewrite !Z.mul_1_r. reflexivity.
Qed.

Lemma num_eq_ofZ (a b : Z) : num_eq (ofZ a) (ofZ b) = (a =? b).
Proof.
  unfold num_eq, num_le, ofZ, Qle_bool, inject_Z. cbn [Qnum Qden].
  rewrite !Z.mul_1_r. lia.
Qed.

(** The two comparisons of the range check, on an integer. *)
Lemma range_check_ofZ (z C : Z) :
  num_lt (ofZ z) (ofZ 0) || num_ge (ofZ z) (ofZ C)
  = negb ((0 <=? z) && (z <? C)).
Proof. rewrite num_lt_ofZ, num_ge_ofZ. lia. Qed.

(** The start of the row of an integer index. *)
Lemma rowStart_ofZ (z n : Z) :
  Z.abs (z * n * 2) < 2 ^ 53 -> rowStart (ofZ z) n = ofZ (z * n * 2).
Proof.
  intros H. unfold rowStart.
  rewrite num_mul_ofZ by lia. apply num_mul_ofZ. exact H.
Qed.

Lemma rowStart_NaN (n : Z) : rowStart NaN n = NaN.
Proof. reflexivity. Qed.

End NumberFacts.

(* ===================================================================== *)
(** ** The stroke bank *)
(* ===================================================================== *)

Section BankFacts.

Variable fround : num -> num.

Local Open Scope nat_scope.

Lemma length_encode pts : length (encode fround pts) = 2 * length pts.
Proof. induction pts as [|p rest IH]; simpl; lia. Qed.

Lemma length_typed_set a i v : length (typed_set fround a i v) = length a.
Proof. unfold typed_set. destruct (0 <=? i)%Z; [apply length_insert | done]. Qed.

Lemma length_typed_store a k v : length (typed_store fround a k v) = length a.
Proof.
  unfold typed_store. destruct k as [| |q|]; try done.
  destruct (Qeq_bool _ q); [apply length_typed_set | done].
Qed.

(** A store under an integer is the store at that element. *)
Lemma typed_store_ofZ a (k : Z) v :
  typed_store fround a (ofZ k) v = typed_set fround a k v.
Proof.
  unfold typed_store, ofZ. rewrite Qfloor_Z.
  replace (Qeq_bool (inject_Z k) (inject_Z k)) with true; [done |].
  symmetry. apply Qeq_bool_iff. reflexivity.
Qed.

Lemma length_copyPoints s i pts data :
  length (copyPoints fround s i pts data) = length data.
Proof.
  revert i data. induction pts as [|p rest IH]; intros i data; simpl; [done |].
  rewrite IH, !length_typed_store. done.
Qed.

(** With a row start that is NaN no store of the copy loop lands. *)
Lemma copyPoints_NaN i pts data : copyPoints fround NaN i pts data = data.
Proof.
  revert i data. induction pts as [|p rest IH]; intros i data; [done |].
  cbn [copyPoints num_add typed_store]. apply IH.
Qed.

Lemma two_inserts {A} (l : list A) k a b :
  k + 2 <= length l ->
  <[S k := b]> (<[k := a]> l) = take k l ++ a :: b :: drop (k + 2) l.
Proof.
  intros Hk.
  rewrite (insert_take_drop l k a) by lia.
  rewrite insert_app_r_alt by (rewrite length_take; lia).
  rewrite length_take, Nat.min_l by lia.
  replace (S k - k) with 1 by lia. simpl.
  replace (k + 2) with (S k + 1) by lia. rewrite <- drop_drop.
  destruct (drop (S k) l) as [|c tl] eqn:Hd.
  - apply (f_equal length) in Hd. rewrite length_drop in Hd. simpl in Hd. lia.
  - done.
Qed.

(** The copy loop from an integer row start, on an array doubles can
    index: the block of cells it rewrites. *)
Lemma copyPoints_spec s i pts data :
  (0 <= s)%Z -> (0 <= i)%Z -> (Z.of_nat (length data) < 2 ^ 53)%Z ->
  Z.to_nat (s + i * 2) + 2 * length pts <= length data ->
  copyPoints fround (ofZ s) i pts data
  = take (Z.to_nat (s + i * 2)) data ++ encode fround pts
    ++ drop (Z.to_nat (s + i * 2) + 2 * length pts) data.
Proof.
  intros Hs. revert i data.
  induction pts as [|p rest IH]; intros i data Hi Hbig Hlen.
  - cbn [copyPoints encode length app]. rewrite Nat.mul_0_r, Nat.add_0_r, take_drop. done.
  - cbn [copyPoints]. cbn [length] in Hlen.
    set (k := Z.to_nat (s + i * 2)) in *.
    rewrite (num_add_ofZ s (i * 2)) by lia.
    rewrite (num_add_ofZ (s + i * 2) 1) by lia.
    rewrite !typed_store_ofZ.
    unfold typed_set.
    destruct (0 <=? s + i * 2)%Z eqn:E1; [| lia].
    destruct (0 <=? s + i * 2 + 1)%Z eqn:E2; [| lia].
    replace (Z.to_nat (s + i * 2 + 1)) with (S k) by lia.
    fold k.
    rewrite two_inserts by lia.
    rewrite IH; [| lia | |].
    + replace (Z.to_nat (s + (i + 1) * 2)) with (k + 2) by lia.
      assert (Hk : length (take k data) = k) by (rewrite length_take; lia).
      cbn [encode].
      change (take k data ++ fround (x p) :: fround (y p) :: drop (k + 2) data)
        with (take k data ++ [fround (x p); fround (y p)] ++ drop (k + 2) data).
      rewrite (assoc_L (++) (take k data)).
      assert (Hk2 : k + 2 = length (take k data ++ [fround (x p); fround (y p)])).
      { rewrite length_app, Hk. done. }
      rewrite (take_app_length' _ _ _ Hk2), (drop_app_add' _ _ _ _ Hk2).
      rewrite drop_drop, <- (assoc_L (++)). simpl.
      do 4 f_equal. apply (f_equal (fun n => drop n data)). lia.
    + rewrite length_app, length_take. simpl. rewrite length_drop. lia.
    + rewrite length_app, length_take. simpl. rewrite length_drop. lia.
Qed.

(** Replacing the block of row [r] leaves the blocks of all other rows as
    they were. *)
Lemma splice_row {A} (data blk : list A) (r r' w : nat) :
  length blk = w -> r * w + w <= length data ->
  take w (drop (r' * w) (take (r * w) data ++ blk ++ drop (r * w + w) data))
  = if decide (r' = r) then blk else take w (drop (r' * w) data).
Proof.
  intros Hb Hlen.
  assert (Ht : length (take (r * w) data) = r * w)
    by (rewrite length_take; lia).
  destruct (decide (r' = r)) as [-> | Hne].
  - rewrite (drop_app_length' _ _ _ (eq_sym Ht)).
    apply take_app_length'. done.
  - apply list_eq. intros j.
    rewrite !lookup_take. destruct (decide (j < w)) as [Hj | Hj]; [| done].
    rewrite !lookup_drop.
    destruct (decide (r' < r)) as [Hlt | Hge].
    + assert (r' * w + j < r * w) by nia.
      rewrite lookup_app_l by lia.
      apply lookup_take_lt. done.
    + assert (r * w + w <= r' * w + j) by nia.
      rewrite lookup_app_r by lia.
      rewrite lookup_app_r by lia.
      rewrite lookup_drop. f_equal. lia.
Qed.

Lemma bank_ok_row_bounds m (strokeIndex : Z) :
  bank_ok m -> (0 <= strokeIndex < maxStrokes m)%Z ->
  let w := Z.to_nat (pointsPerStroke m * 2) in
  Z.to_nat (strokeIndex * pointsPerStroke m * 2 + 0 * 2)
  = Z.to_nat strokeIndex * w
  /\ Z.to_nat strokeIndex * w + w <= length (textureData m).
Proof.
  intros (HC & HN & HL) Hi. unfold length_Z in HL. rewrite HN in *.
  unfold DRAWING_CONSTANTS.POINTS_PER_STROKE in *. simpl. nia.
Qed.

(** The texture data of a bank is small enough for doubles to index. *)
Lemma bank_ok_indexable m :
  bank_ok m -> (Z.of_nat (length (textureData m)) < 2 ^ 53)%Z.
Proof.
  intros (HC & HN & HL). unfold length_Z in HL. rewrite HL, HC, HN.
  reflexivity.
Qed.

(** The row start the operations compute for an integer index in range. *)
Lemma bank_ok_rowStart m (strokeIndex : Z) :
  bank_ok m -> (0 <= strokeIndex < maxStrokes m)%Z ->
  rowStart (ofZ strokeIndex) (pointsPerStroke m)
  = ofZ (strokeIndex * pointsPerStroke m * 2).
Proof.
  intros (HC & HN & _) Hi. apply rowStart_ofZ.
  rewrite HN. rewrite HC in Hi.
  unfold DRAWING_CONSTANTS.POINTS_PER_STROKE, DRAWING_CONSTANTS.MAX_STROKES in *.
  lia.
Qed.

(** The texture data after a successful copy of [pts] into row
    [strokeIndex]. *)
Lemma copyPoints_row m (strokeIndex : Z) pts (r' : nat) :
  bank_ok m -> (0 <= strokeIndex < maxStrokes m)%Z ->
  length_Z pts = pointsPerStroke m ->
  row (set_textureData m
         (copyPoints fround (rowStart (ofZ strokeIndex) (pointsPerStroke m))
            0 pts (textureData m))) r'
  = if decide (r' = Z.to_nat strokeIndex) then encode fround pts
    else row m r'.
Proof.
  intros Hok Hi Hn.
  rewrite (bank_ok_rowStart m strokeIndex Hok Hi).
  destruct (bank_ok_row_bounds m strokeIndex Hok Hi) as [Hk Hb].
  pose proof (bank_ok_indexable m Hok) as Hbig.
  destruct Hok as (HC & HN & HL).
  unfold row. simpl.
  set (w := Z.to_nat (pointsPerStroke m * 2)) in *.
  assert (Hw : 2 * length pts = w) by (unfold length_Z in Hn; lia).
  assert (Hs : (0 <= strokeIndex * pointsPerStroke m * 2)%Z).
  { rewrite HN. unfold DRAWING_CONSTANTS.POINTS_PER_STROKE. lia. }
  rewrite copyPoints_spec; [| lia | lia | exact Hbig | lia].
  rewrite Hk, Hw.
  apply splice_row; [rewrite length_encode; lia | lia].
Qed.

Lemma bank_ok_set_textureData m d :
  bank_ok m -> length d = length (textureData m) ->
  bank_ok (set_textureData m d).
Proof.
  intros (HC & HN & HL) Hd. unfold bank_ok, length_Z in *. simpl.
  rewrite Hd. done.
Qed.

Lemma bank_ok_texture_update m payload :
  bank_ok m -> bank_ok (texture_update m payload).
Proof. done. Qed.

Lemma set_textureData_same m : set_textureData m (textureData m) = m.
Proof. by destruct m. Qed.

Lemma length_zeroFrom s i n data :
  length (zeroFrom fround s i n data) = length data.
Proof.
  revert i data. induction n as [|n IH]; intros i data; simpl; [done |].
  rewrite IH, length_typed_store. done.
Qed.

Lemma zeroFrom_NaN i n data : zeroFrom fround NaN i n data = data.
Proof.
  revert i data. induction n as [|n IH]; intros i data; [done |].
  cbn [zeroFrom num_add typed_store]. apply IH.
Qed.

(** The invariant is kept by every operation of the manager. *)
Lemma bank_ok_uploadStroke m strokeIndex pts :
  bank_ok m -> bank_ok (fst (uploadStroke fround m strokeIndex pts)).
Proof.
  intros Hok. unfold uploadStroke.
  destruct (num_lt strokeIndex (ofZ 0)
            || num_ge strokeIndex (ofZ (maxStrokes m))); [done |].
  destruct (negb (length_Z pts =? pointsPerStroke m)%Z); [done |].
  cbn [fst]. apply bank_ok_texture_update, bank_ok_set_textureData;
    [done | apply length_copyPoints].
Qed.

Lemma bank_ok_clearStroke m strokeIndex :
  bank_ok m -> bank_ok (fst (clearStroke fround m strokeIndex)).
Proof.
  intros Hok. unfold clearStroke.
  destruct (num_lt strokeIndex (ofZ 0)
            || num_ge strokeIndex (ofZ (maxStrokes m))); [done |].
  cbn [fst]. apply bank_ok_texture_update, bank_ok_set_textureData;
    [done | apply length_zeroFrom].
Qed.

Lemma bank_ok_clearAllStrokes m :
  bank_ok m -> bank_ok (clearAllStrokes fround m).
Proof.
  intros Hok. unfold clearAllStrokes.
  apply bank_ok_texture_update, bank_ok_set_textureData;
    [done | apply length_map].
Qed.

Lemma bank_ok_createStrokeTexture : bank_ok (createStrokeTexture).
Proof.
  unfold bank_ok, createStrokeTexture, length_Z.
  cbn [textureData maxStrokes pointsPerStroke].
  rewrite length_replicate.
  split; [reflexivity | split; [reflexivity |]].
  apply Z2Nat.id. discriminate.
Qed.

(** What [uploadStroke] does with the index NaN: neither comparison of the
    range check holds, and no store of the copy loop lands. *)
Lemma uploadStroke_NaN m pts :
  uploadStroke fround m NaN pts
  = if (length_Z pts =? pointsPerStroke m)%Z
    then (texture_update m (Float16Array_of (textureData m)), None)
    else (m, Some (PointCountMismatch (pointsPerStroke m) (length_Z pts))).
Proof.
  unfold uploadStroke. cbn [num_lt num_ge num_le orb].
  destruct (length_Z pts =? pointsPerStroke m)%Z; cbn [negb]; [| done].
  rewrite rowStart_NaN, copyPoints_NaN, set_textureData_same. done.
Qed.

End BankFacts.

(* ===================================================================== *)
(** ** [uploadStroke] and the round trip through the bank *)
(* ===================================================================== *)


(** A call with an integer row index in range and the right number of
    points returns, and rewrites that row only. *)
Lemma uploadStroke_success (fround : num -> num)
    (m : StrokeTextureManager) (strokeIndex : Z) (pts : list StrokePoint) :
  bank_ok m -> (0 <= strokeIndex < 64)%Z -> length_Z pts = 1024%Z ->
  snd (uploadStroke fround m (ofZ strokeIndex) pts) = None
  /\ row (fst (uploadStroke fround m (ofZ strokeIndex) pts))
       (Z.to_nat strokeIndex)
     = encode fround pts
  /\ forall r, r <> Z.to_nat strokeIndex ->
       row (fst (uploadStroke fround m (ofZ strokeIndex) pts)) r = row m r.
Proof.
  intros Hok Hi Hn. pose proof Hok as (HC & HN & HL).
  change DRAWING_CONSTANTS.MAX_STROKES with 64%Z in HC.
  change DRAWING_CONSTANTS.POINTS_PER_STROKE with 1024%Z in HN.
  unfold uploadStroke. rewrite range_check_ofZ.
  replace ((0 <=? strokeIndex) && (strokeIndex <? maxStrokes m))%Z
    with true by (rewrite HC; lia).
  replace (negb (length_Z pts =? pointsPerStroke m)%Z)
    with false by (rewrite HN; lia).
  cbn [negb fst snd].
  assert (Hrow : forall r,
             row (texture_update
                    (set_textureData m
                       (copyPoints fround
                          (rowStart (ofZ strokeIndex) (pointsPerStroke m))
                          0 pts (textureData m)))
                    (Float16Array_of
                       (textureData
                          (set_textureData m
                             (copyPoints fround
                                (rowStart (ofZ strokeIndex)
                                   (pointsPerStroke m)) 0
                                pts (textureData m)))))) r
             = if decide (r = Z.to_nat strokeIndex)
               then encode fround pts else row m r).
  { intros r. rewrite <- (copyPoints_row fround m strokeIndex pts r Hok);
      [done | lia | lia]. }
  split; [done |]. split.
  - rewrite Hrow. by rewrite decide_True.
  - intros r Hr. rewrite Hrow. by rewrite decide_False.
Qed.

(** C2: the index NaN.  [uploadStroke(NaN, points)] does not throw the
    index-out-of-range error although NaN is outside [0, 64): both
    comparisons of the range check are false on NaN.  With 1024 points the
    call returns, having written nothing and updated the texture; with
    another number of points it throws the point-count error.  So it is on
    a freshly constructed manager with 1024 points. *)
Theorem uploadStroke_accepts_nan_index (fround : num -> num)
    (m : StrokeTextureManager) (pts : list StrokePoint) :
  uploadStroke fround m NaN pts
  = (if (length_Z pts =? pointsPerStroke m)%Z
     then (texture_update m (Float16Array_of (textureData m)), None)
     else (m, Some (PointCountMismatch (pointsPerStroke m) (length_Z pts))))
  /\ snd (uploadStroke fround createStrokeTexture NaN
            (replicate (Z.to_nat 1024) unitPoint)) = None.
Proof.
  split; [apply uploadStroke_NaN |].
  rewrite uploadStroke_NaN.
  replace (length_Z (replicate (Z.to_nat 1024) unitPoint)
           =? pointsPerStroke createStrokeTexture)%Z with true; [done |].
  unfold length_Z. rewrite length_replicate. reflexivity.
Qed.

Lemma length_Z_replicate {A} (n : Z) (a : A) :
  (0 <= n)%Z -> length_Z (replicate (Z.to_nat n) a) = n.
Proof. intros Hn. unfold length_Z. rewrite length_replicate. lia. Qed.

Section RoundTripFacts.

Import Binary.



End RoundTripFacts.




(* ===================================================================== *)
(** ** [uploadStrokes]: the batch *)
(* ===================================================================== *)

Section BatchFacts.

Variable fround : num -> num.

Local Open Scope nat_scope.

Lemma entriesFor_cons r e batch :
  entriesFor r (e :: batch)
  = if decide (applicable e && num_eq (index e) (ofZ (Z.of_nat r)) = true)
    then e :: entriesFor r batch else entriesFor r batch.
Proof. unfold entriesFor. rewrite filter_cons. done. Qed.

(** The guards on an entry with an integer index. *)
Lemma applicable_ofZ (z : Z) pts :
  applicable (mkStrokeEntry (ofZ z) pts)
  = ((0 <=? z)%Z && (z <? DRAWING_CONSTANTS.MAX_STROKES)%Z)
    && (length_Z pts =? DRAWING_CONSTANTS.POINTS_PER_STROKE)%Z.
Proof.
  unfold applicable. cbn [index points].
  rewrite range_check_ofZ, negb_involutive. done.
Qed.

(** One round of the loop on an entry with an integer index. *)
Lemma uploadStrokes_step_spec m flag e :
  bank_ok m -> (exists z : Z, index e = ofZ z) ->
  let m1 := fst (uploadStrokes_step fround (m, flag) e) in
  let flag1 := snd (uploadStrokes_step fround (m, flag) e) in
  bank_ok m1
  /\ strokeTexture m1 = strokeTexture m
  /\ flag1 = flag || applicable e
  /\ console m1
     = console m ++ (if applicable e then [] else [warningFor e])
  /\ forall r,
       row m1 r
       = if decide (applicable e && num_eq (index e) (ofZ (Z.of_nat r)) = true)
         then encode fround (points e) else row m r.
Proof.
  intros Hok [z Hz]. pose proof Hok as (HC & HN & HL).
  destruct e as [idx pts]. cbn [index] in Hz. subst idx.
  unfold uploadStrokes_step, warningFor. rewrite applicable_ofZ.
  cbn [index points]. rewrite HC, HN, !range_check_ofZ.
  destruct ((0 <=? z)%Z && (z <? DRAWING_CONSTANTS.MAX_STROKES)%Z) eqn:Eidx;
    cbn [negb andb].
  - destruct (length_Z pts =? DRAWING_CONSTANTS.POINTS_PER_STROKE)%Z
      eqn:Elen; cbn [negb fst snd andb].
    + rewrite orb_true_r, app_nil_r.
      split; [apply bank_ok_set_textureData;
              [done | apply length_copyPoints] |].
      repeat split; try done.
      intros r. rewrite num_eq_ofZ.
      rewrite <- HN.
      rewrite (copyPoints_row fround m z pts r Hok);
        [| rewrite HC; unfold DRAWING_CONSTANTS.MAX_STROKES in *; lia
         | rewrite HN; lia ].
      destruct (decide (r = Z.to_nat z)) as [-> | Hne].
      * rewrite decide_True; [done |].
        apply Z.eqb_eq. unfold DRAWING_CONSTANTS.MAX_STROKES in *. lia.
      * rewrite decide_False; [done |].
        rewrite Z.eqb_eq. unfold DRAWING_CONSTANTS.MAX_STROKES in *. lia.
    + rewrite orb_false_r.
      repeat split; try done;
        intros r; rewrite decide_False by done; done.
  - rewrite orb_false_r.
    repeat split; try done;
      intros r; rewrite decide_False by done; done.
Qed.

(** The whole loop on a batch of integer indices, from any manager and any
    value of [needsUpdate]. *)
Lemma uploadStrokes_loop_spec batch : forall m flag,
  bank_ok m -> integerIndices batch ->
  let st := foldl (uploadStrokes_step fround) (m, flag) batch in
  bank_ok (fst st)
  /\ strokeTexture (fst st) = strokeTexture m
  /\ snd st = flag || existsb applicable batch
  /\ console (fst st)
     = console m ++ map warningFor (filter (fun e => applicable e = false) batch)
  /\ forall r,
       row (fst st) r
       = match last (entriesFor r batch) with
         | Some e => encode fround (points e)
         | None => row m r
         end.
Proof.
  induction batch as [|e rest IH]; intros m flag Hok Hint.
  - cbn [foldl fst snd existsb]. rewrite orb_false_r, app_nil_r. done.
  - cbn [foldl]. apply Forall_cons in Hint as [He Hrest].
    destruct (uploadStrokes_step_spec m flag e Hok He)
      as (Hok1 & Htex1 & Hflag1 & Hcon1 & Hrow1).
    destruct (uploadStrokes_step fround (m, flag) e) as [m1 flag1].
    cbn [fst snd] in *.
    destruct (IH m1 flag1 Hok1 Hrest) as (Hok' & Htex' & Hflag' & Hcon' & Hrow').
    split; [exact Hok' |].
    split; [congruence |].
    split; [rewrite Hflag', Hflag1; cbn [existsb]; symmetry; apply orb_assoc |].
    split.
    + rewrite Hcon', Hcon1, filter_cons.
      destruct (applicable e) eqn:Ea.
      * rewrite decide_False by done. by rewrite app_nil_r.
      * rewrite decide_True by done. cbn [map]. by rewrite <- app_assoc.
    + intros r. rewrite Hrow', Hrow1, entriesFor_cons.
      destruct (decide (applicable e && num_eq (index e) (ofZ (Z.of_nat r))
                        = true)).
      * rewrite last_cons. by destruct (last (entriesFor r rest)).
      * done.
Qed.

Lemma bank_ok_uploadStrokes_step st e :
  bank_ok (fst st) -> bank_ok (fst (uploadStrokes_step fround st e)).
Proof.
  destruct st as [m flag]. cbn [fst]. intros Hok. unfold uploadStrokes_step.
  destruct (num_lt (index e) (ofZ 0)
            || num_ge (index e) (ofZ (maxStrokes m))); [done |].
  destruct (negb (length_Z (points e) =? pointsPerStroke m)%Z); [done |].
  cbn [fst]. apply bank_ok_set_textureData; [done | apply length_copyPoints].
Qed.

Lemma bank_ok_uploadStrokes m batch :
  bank_ok m -> bank_ok (fst (uploadStrokes fround m batch)).
Proof.
  intros Hok. unfold uploadStrokes.
  assert (H : forall st, bank_ok (fst st) ->
                bank_ok (fst (foldl (uploadStrokes_step fround) st batch))).
  { induction batch as [|e rest IH]; intros st Hst; [done |].
    cbn [foldl]. apply IH, bank_ok_uploadStrokes_step, Hst. }
  specialize (H (m, false) Hok).
  destruct (foldl (uploadStrokes_step fround) (m, false) batch) as [m1 [|]];
    cbn [fst] in *; [apply bank_ok_texture_update |]; exact H.
Qed.

(** What one round does with an entry whose index is NaN and which has the
    right number of points: no warning, no store that lands, and
    [needsUpdate] set. *)
Lemma uploadStrokes_step_NaN m flag pts :
  length_Z pts = pointsPerStroke m ->
  uploadStrokes_step fround (m, flag) (mkStrokeEntry NaN pts) = (m, true).
Proof.
  intros Hn. unfold uploadStrokes_step.
  cbn [index points num_lt num_ge num_le orb].
  replace (length_Z pts =? pointsPerStroke m)%Z with true by lia.
  cbn [negb]. rewrite rowStart_NaN, copyPoints_NaN, set_textureData_same. done.
Qed.

End BatchFacts.

(** C8: an entry whose index is NaN.  It is a bad entry, NaN being outside
    [0, 64), but [uploadStrokes] neither skips it nor prints a warning: the
    comparisons of the guard are false on NaN, the copy loop runs without
    a store landing, and the texture is updated with unchanged data.  So it
    is for the batch of that single entry on a freshly constructed
    manager. *)
Theorem uploadStrokes_applies_nan_index (fround : num -> num)
    (m : StrokeTextureManager) (pts : list StrokePoint) :
  (uploadStrokes fround m [mkStrokeEntry NaN pts]
   = if (length_Z pts =? pointsPerStroke m)%Z
     then (texture_update m (Float32Array_raw (textureData m)), None)
     else (console_warn m
             (SkippingPointCount NaN (length_Z pts) (pointsPerStroke m)),
           None))
  /\ (let m' :=
        fst (uploadStrokes fround createStrokeTexture
               [mkStrokeEntry NaN (replicate (Z.to_nat 1024) unitPoint)]) in
      console m' = []
      /\ strokeTexture m'
         = strokeTexture createStrokeTexture
           ++ [Float32Array_raw (textureData createStrokeTexture)]).
Proof.
  assert (H : uploadStrokes fround m [mkStrokeEntry NaN pts]
              = if (length_Z pts =? pointsPerStroke m)%Z
                then (texture_update m (Float32Array_raw (textureData m)), None)
                else (console_warn m
                        (SkippingPointCount NaN (length_Z pts)
                           (pointsPerStroke m)),
                      None)).
  { unfold uploadStrokes. cbn [foldl].
    destruct (length_Z pts =? pointsPerStroke m)%Z eqn:E.
    - rewrite uploadStrokes_step_NaN by (apply Z.eqb_eq; exact E). done.
    - unfold uploadStrokes_step.
      cbn [index points num_lt num_ge num_le orb]. rewrite E. done. }
  split; [exact H |].
  intros m'. subst m'. unfold uploadStrokes. cbn [foldl].
  rewrite uploadStrokes_step_NaN
    by (rewrite length_Z_replicate by lia; reflexivity).
  cbn [fst texture_update console strokeTexture]. split; reflexivity.
Qed.

(* ===================================================================== *)
(** ** [validateStrokeData] *)
(* ===================================================================== *)

Section ValidationFacts.

Local Open Scope nat_scope.

Lemma checkPoints_nil i pts :
  checkPoints i pts = [] <-> Forall pointAccepted pts.
Proof.
  revert i. induction pts as [|p rest IH]; intros i.
  - split; [constructor | done].
  - cbn [checkPoints].
    rewrite Forall_cons, <- (IH (S i)). unfold pointAccepted.
    destruct (isFinite (x p)), (isFinite (y p)),
      (num_lt (t p) (Finite 0)), (num_gt (t p) (Finite 1));
      cbn [negb orb app]; split; try done; try tauto;
      intros [(? & ? & ? & ?) _]; done.
Qed.

Lemma checkProgression_nil i prev rest :
  checkProgression i prev rest = [] <-> noDecrease (prev :: rest).
Proof.
  revert i prev. induction rest as [|p rest IH]; intros i prev; simpl.
  - split; [| done]. intros _ [|j] a b Ha Hb; done.
  - destruct (num_lt (t p) (t prev)) eqn:Elt.
    + split; [done |]. intros H.
      specialize (H 0 prev p eq_refl eq_refl). congruence.
    + rewrite IH. split.
      * intros H [|j] a b Ha Hb.
        -- simpl in Ha, Hb. congruence.
        -- exact (H j a b Ha Hb).
      * intros H j a b Ha Hb. exact (H (S j) a b Ha Hb).
Qed.

(** The validator accepts exactly the strokes with the right number of
    points whose points pass both loops. *)
Lemma validateStrokeData_valid_iff m pts :
  valid (validateStrokeData m pts) = true
  <-> length_Z pts = pointsPerStroke m
      /\ Forall pointAccepted pts /\ noDecrease pts.
Proof.
  unfold validateStrokeData. cbn [valid].
  rewrite Nat.eqb_eq, length_zero_iff_nil.
  rewrite <- checkPoints_nil with (i := 0).
  assert (Hprog : match pts with
                  | [] => []
                  | first :: rest => checkProgression 1 first rest
                  end = [] <-> noDecrease pts).
  { destruct pts as [|first rest]; [| apply checkProgression_nil].
    split; [| done]. intros _ i a b Ha; done. }
  rewrite <- Hprog.
  destruct (length_Z pts =? pointsPerStroke m)%Z eqn:Elen; cbn [negb app].
  - rewrite app_nil. split; [intros [? ?] | intros (_ & ? & ?)]; [|done].
    split; [lia | done].
  - split; [done | intros [? _]; lia].
Qed.

Lemma Qltb_false_iff (a b : Q) : Qltb a b = false <-> Qle_bool b a = true.
Proof.
  unfold Qltb. rewrite Qle_bool_iff.
  pose proof (Qlt_alt a b) as Hlt. pose proof (Qle_not_lt b a) as H1.
  pose proof (Qnot_lt_le a b) as H2.
  destruct (a ?= b)%Q eqn:E; split; intros H; try done.
  - apply H2. rewrite Hlt. done.
  - exfalso. apply (H1 H). rewrite Hlt. done.
  - apply H2. rewrite Hlt. done.
Qed.

(** Away from NaN, "not below" is "at least". *)
Lemma num_lt_false_iff (a b : num) :
  a <> NaN -> b <> NaN -> (num_lt a b = false <-> num_le b a = true).
Proof.
  intros Ha Hb. destruct a, b; try done. simpl. apply Qltb_false_iff.
Qed.

(** For strokes whose [t] values are numbers other than NaN, the validator
    accepts exactly: N points, finite x and y, every [t] in [0, 1], and no
    [t] below its predecessor's (equal neighbours pass). *)
Lemma validateStrokeData_without_nan m pts :
  bank_ok m ->
  Forall (fun p => t p <> NaN) pts ->
  valid (validateStrokeData m pts) = true
  <-> length_Z pts = 1024%Z
      /\ Forall (fun p => isFinite (x p) = true /\ isFinite (y p) = true
                          /\ num_le (Finite 0) (t p) = true
                          /\ num_le (t p) (Finite 1) = true) pts
      /\ (forall i p q, pts !! i = Some p -> pts !! S i = Some q ->
                        num_le (t p) (t q) = true).
Proof.
  intros (_ & HN & _) Hnan. rewrite validateStrokeData_valid_iff, HN.
  change DRAWING_CONSTANTS.POINTS_PER_STROKE with 1024%Z.
  rewrite Forall_forall in Hnan.
  split; intros (Hlen & Hpts & Hadj); (split; [exact Hlen |]); split.
  - rewrite Forall_forall in *. intros p Hp.
    destruct (Hpts p Hp) as (Hx & Hy & H0 & H1). unfold num_gt in H1.
    rewrite num_lt_false_iff in H0, H1 by (try done; exact (Hnan p Hp)).
    done.
  - intros i p q Hp Hq. specialize (Hadj i p q Hp Hq).
    rewrite num_lt_false_iff in Hadj; [done | |];
      apply Hnan; eapply list_elem_of_lookup_2; eassumption.
  - rewrite Forall_forall in *. intros p Hp.
    destruct (Hpts p Hp) as (Hx & Hy & H0 & H1).
    unfold pointAccepted, num_gt.
    rewrite !num_lt_false_iff by (try done; exact (Hnan p Hp)).
    done.
  - intros i p q Hp Hq. specialize (Hadj i p q Hp Hq).
    rewrite num_lt_false_iff; [done | |];
      apply Hnan; eapply list_elem_of_lookup_2; eassumption.
Qed.

End ValidationFacts.

Lemma validateStrokeData_replicate m (p : StrokePoint) :
  bank_ok m -> pointAccepted p -> num_lt (t p) (t p) = false ->
  valid (validateStrokeData m (replicate (Z.to_nat 1024) p)) = true.
Proof.
  intros (_ & HN & _) Hp Hpp. apply validateStrokeData_valid_iff.
  split; [| split].
  - rewrite HN. apply length_Z_replicate. unfold DRAWING_CONSTANTS.POINTS_PER_STROKE. lia.
  - apply Forall_replicate. exact Hp.
  - intros i a b Ha Hb.
    apply lookup_replicate in Ha as [-> _].
    apply lookup_replicate in Hb as [-> _]. exact Hpp.
Qed.

(** Consecutive points with equal [t] pass the validator. *)
Lemma validateStrokeData_equal_t_accepted :
  valid (validateStrokeData createStrokeTexture constantTStroke) = true.
Proof.
  apply validateStrokeData_replicate;
    [exact bank_ok_createStrokeTexture | repeat split | reflexivity].
Qed.

(** C10: the validator is meant to accept a stroke exactly when it has N
    points, finite x and y, every [t] in [0, 1] and nondecreasing [t].  It
    accepts the stroke of 1024 points whose [t] is NaN throughout: no [t]
    of it lies in [0, 1], yet neither [t < 0] nor [t > 1] nor
    [t_i < t_(i-1)] holds of NaN, so no error is recorded. *)
Theorem validateStrokeData_accepts_nan_t :
  valid (validateStrokeData createStrokeTexture nanStroke) = true
  /\ length nanStroke = 1024%nat
  /\ Forall (fun p => num_le (Finite 0) (t p) = false
                      /\ num_le (t p) (Finite 1) = false) nanStroke.
Proof.
  split; [| split].
  - apply validateStrokeData_replicate;
      [exact bank_ok_createStrokeTexture | repeat split | reflexivity].
  - unfold nanStroke. rewrite length_replicate. reflexivity.
  - apply Forall_replicate. split; reflexivity.
Qed.

(* ===================================================================== *)
(** ** The kernels *)
(* ===================================================================== *)

Section KernelFacts.

Import StrokeAnimation.

Local Open Scope Q_scope.

Lemma Qltb_true_iff (a b : Q) : Qltb a b = true <-> a < b.
Proof.
  unfold Qltb. rewrite Qlt_alt. destruct (a ?= b); split; done.
Qed.

(** A global index decodes to the slot and the point it was built from. *)
Lemma decode_globalIndex (slot pointIndex : Z) :
  (0 <= pointIndex < 1024)%Z ->
  ((slot * 1024 + pointIndex) / PerPoint.POINTS_PER_STROKE = slot
   /\ (slot * 1024 + pointIndex) mod PerPoint.POINTS_PER_STROKE = pointIndex)%Z.
Proof.
  intros Hp. unfold PerPoint.POINTS_PER_STROKE. split.
  - rewrite Z.div_add_l by lia. rewrite Z.div_small by lia. lia.
  - rewrite Z.add_comm, Z.mod_add by lia. apply Z.mod_small. lia.
Qed.

Lemma loadConfig_lookup cs (i : Z) config :
  cs !! Z.to_nat i = Some config -> loadConfig cs i = config.
Proof. intros H. unfold loadConfig. rewrite H. done. Qed.

Lemma setInactiveInstance_launchConfigs i b :
  launchConfigs (setInactiveInstance i b) = launchConfigs b.
Proof. done. Qed.

Lemma buildTransformMatrix_launchConfigs i pos s b :
  launchConfigs (buildTransformMatrix i pos s b) = launchConfigs b.
Proof. done. Qed.



End KernelFacts.

(** The translation of a hidden instance lies outside the view of the
    scene's camera. *)
Lemma offscreen_not_inView :
  ~ DrawingScene.inView (StrokeAnimation.v0 StrokeAnimation.offscreen)
      (StrokeAnimation.v1 StrokeAnimation.offscreen).
Proof.
  intros [[Hl _] _]. vm_compute in Hl. apply Hl. reflexivity.
Qed.

Section KernelInstances.

Import StrokeAnimation.

(** The scene's parameters give the kernel 64 slots. *)
Lemma scene_slot_count (time deltaTime : Q) :
  u32_of_f32 (maxAnimations (DrawingScene.globalParams time deltaTime))
  = 64%Z.
Proof. reflexivity. Qed.

(** C1, as written: the slot capacity is 1024.  The constant the scene and
    the kernel's bound check use is not 1024, and the unit of slot 64 (a
    slot below 1024) writes nothing although its record is active. *)
Lemma slot_capacity_not_1024 :
  DrawingScene.maxAnimations <> 1024%Z
  /\ launchConfigs (sampleBindings 65) !! 64%nat = Some sampleConfig
  /\ PerPoint.main (64 * 1024) (sampleBindings 65) = sampleBindings 65.
Proof.
  split; [discriminate |]. split; reflexivity.
Qed.

(** One dispatch covers the global indices 0 .. 65535, whose slots are
    0 .. 63. *)
Lemma dispatchedIndices_slots (i : Z) :
  In i DrawingScene.dispatchedIndices ->
  (0 <= i / PerPoint.POINTS_PER_STROKE < 64)%Z.
Proof.
  unfold DrawingScene.dispatchedIndices.
  change (DrawingScene.workgroups * DrawingScene.workgroupSize)%Z
    with 65536%Z.
  rewrite in_map_iff. intros (n & <- & Hn). apply in_seq in Hn.
  unfold PerPoint.POINTS_PER_STROKE. split.
  - apply Z.div_pos; lia.
  - apply Z.div_lt_upper_bound; lia.
Qed.

Lemma length_dispatchedIndices :
  length_Z DrawingScene.dispatchedIndices = 65536%Z.
Proof.
  unfold length_Z, DrawingScene.dispatchedIndices.
  rewrite length_map, length_seq.
  change (DrawingScene.workgroups * DrawingScene.workgroupSize)%Z
    with 65536%Z.
  lia.
Qed.

(** C1, amended: the slot capacity is [MAX_ANIMATIONS] = 64.  The scene
    allocates 64 * 1024 = 65536 instances and dispatches exactly that many
    invocations, whose slots are 0 .. 63; it hands the kernel the bound 64,
    so that an invocation whose slot is 64 or more returns without
    writing. *)
Theorem scene_slot_capacity :
  DrawingScene.maxAnimations = 64%Z
  /\ DrawingScene.maxInstances = 65536%Z
  /\ length_Z DrawingScene.dispatchedIndices = 65536%Z
  /\ (forall i : Z, In i DrawingScene.dispatchedIndices ->
                    (0 <= i / PerPoint.POINTS_PER_STROKE < 64)%Z)
  /\ (forall (time deltaTime : Q) (b : Bindings) (globalIndex : Z),
         globalParams b = DrawingScene.globalParams time deltaTime ->
         (64 * 1024 <= globalIndex)%Z ->
         PerPoint.main globalIndex b = b).
Proof.
  split; [reflexivity |]. split; [reflexivity |].
  split; [exact length_dispatchedIndices |].
  split; [exact dispatchedIndices_slots |].
  intros time deltaTime b globalIndex Hg Hge.
  unfold PerPoint.main. rewrite Hg, scene_slot_count.
  assert (H : (64 <= globalIndex / PerPoint.POINTS_PER_STROKE)%Z)
    by (apply Z.div_le_lower_bound; [reflexivity | exact Hge]).
  replace (globalIndex / PerPoint.POINTS_PER_STROKE >=? 64)%Z with true by lia.
  reflexivity.
Qed.

Lemma scene_slot_capacity_witness :
  PerPoint.main (100 * 1024) (sampleBindings 1) = sampleBindings 1.
Proof.
  apply (proj2 (proj2 (proj2 (proj2 scene_slot_capacity))) 1 (1 # 60)).
  - reflexivity.
  - lia.
Defined.

End KernelInstances.

(* ===================================================================== *)
(** ** The normalizer *)
(* ===================================================================== *)

Section NormalizerFacts.

Import StrokeInterpolator.

Variable epsilon : Q.
Variable sqrt : Q -> Q.

Local Open Scope Q_scope.

Lemma parameterOf_lt (i j : nat) :
  (i < j)%nat -> parameterOf i < parameterOf j.
Proof.
  intros Hij. unfold parameterOf, Qdiv.
  apply Qmult_lt_compat_r; [reflexivity |].
  rewrite <- Zlt_Qlt. lia.
Qed.

Lemma parameterOf_first : parameterOf 0 == 0.
Proof. reflexivity. Qed.

Lemma parameterOf_last : parameterOf (NORMALIZED_POINT_COUNT - 1) == 1.
Proof. reflexivity. Qed.

Lemma t_sample cleaned lengths j :
  t (sample cleaned lengths j) = Finite (parameterOf j).
Proof. reflexivity. Qed.

(** A stroke with two points farther apart than [epsilon] is not
    degenerate. *)
Lemma degenerate_false (stroke : list SourcePoint) :
  (exists p q, In p stroke /\ In q stroke
               /\ epsilon * epsilon < dist2 (position p) (position q)) ->
  degenerate epsilon (map position stroke) = false.
Proof.
  intros (p & q & Hp & Hq & Hfar).
  destruct (degenerate epsilon (map position stroke)) eqn:E; [| done].
  exfalso. unfold degenerate in E.
  rewrite forallb_forall in E.
  specialize (E (position p) (in_map position _ _ Hp)).
  rewrite forallb_forall in E.
  specialize (E (position q) (in_map position _ _ Hq)).
  apply Qle_bool_iff in E. apply (Qlt_not_le _ _ Hfar E).
Qed.

(** The samples from [a + 1] on never fall below the [t] of sample [a]. *)
Lemma nondecreasing_t_samples cleaned lengths (n a : nat) :
  nondecreasing_t (Finite (parameterOf a))
    (map (sample cleaned lengths) (seq (S a) n)) = true.
Proof.
  revert a. induction n as [|n IH]; intros a; [done |].
  cbn [seq map nondecreasing_t]. rewrite t_sample, IH, andb_true_r.
  cbn [num_le]. apply Qle_bool_iff, Qlt_le_weak, parameterOf_lt. lia.
Qed.

Lemma lookup_samples cleaned lengths (n i : nat) p :
  map (sample cleaned lengths) (seq 0 n) !! i = Some p ->
  p = sample cleaned lengths i /\ (i < n)%nat.
Proof.
  change (map (sample cleaned lengths) (seq 0 n))
    with (sample cleaned lengths <$> seq 0 n).
  rewrite list_lookup_fmap. intros H.
  destruct (seq 0 n !! i) as [j|] eqn:E; [| done].
  apply lookup_seq in E as [-> Hi]. simpl in H. split; [congruence | done].
Qed.

(** The samples pass [validateNormalizedStroke]. *)
Lemma samples_valid cleaned lengths :
  validateNormalizedStroke
    (map (sample cleaned lengths) (seq 0 NORMALIZED_POINT_COUNT)) = true.
Proof.
  unfold validateNormalizedStroke.
  rewrite length_map, length_seq, Nat.eqb_refl. cbn [andb].
  assert (Hfin : forallb (fun p => isFinite (x p) && isFinite (y p))
                   (map (sample cleaned lengths) (seq 0 NORMALIZED_POINT_COUNT))
                 = true).
  { apply forallb_forall. intros p Hp.
    apply in_map_iff in Hp as (j & <- & _). reflexivity. }
  rewrite Hfin. cbn [andb].
  assert (Hlast : List.last
                    (map (sample cleaned lengths) (seq 0 NORMALIZED_POINT_COUNT))
                    (sample cleaned lengths 0)
                  = sample cleaned lengths (NORMALIZED_POINT_COUNT - 1)).
  { change NORMALIZED_POINT_COUNT with (S (NORMALIZED_POINT_COUNT - 1)) at 1.
    rewrite seq_S, map_app. cbn [map]. apply last_last. }
  change (seq 0 NORMALIZED_POINT_COUNT)
    with (0%nat :: seq 1 (NORMALIZED_POINT_COUNT - 1)) at 1.
  cbn [map]. cbn [map] in Hlast. rewrite Hlast, !t_sample.
  rewrite nondecreasing_t_samples. reflexivity.
Qed.

End NormalizerFacts.

(** C6: for a stroke with two points farther apart than [epsilon] (so not
    degenerate, and with at least two distinct points), [normalizeStroke]
    returns a stroke, and that stroke has exactly N = 1024 points, finite
    coordinates, [t] equal to 0 at the first point and to 1 at the last,
    and [t] increasing from each point to the next; it passes
    [validateNormalizedStroke]. *)
Theorem normalizeStroke_postcondition (epsilon : Q) (sqrt : Q -> Q)
    (stroke : list StrokeInterpolator.SourcePoint) :
  (exists p q,
      In p stroke /\ In q stroke
      /\ epsilon * epsilon
         < StrokeInterpolator.dist2 (StrokeInterpolator.position p)
             (StrokeInterpolator.position q)) ->
  exists pts : list StrokePoint,
    StrokeInterpolator.normalizeStroke epsilon sqrt stroke = inl pts
    /\ length pts = 1024%nat
    /\ Forall (fun p => isFinite (x p) = true /\ isFinite (y p) = true) pts
    /\ (exists first last,
           pts !! 0%nat = Some first /\ pts !! 1023%nat = Some last
           /\ num_eq (t first) (Finite 0) = true
           /\ num_eq (t last) (Finite 1) = true)
    /\ (forall i p q, pts !! i = Some p -> pts !! S i = Some q ->
                      num_lt (t p) (t q) = true)
    /\ StrokeInterpolator.validateNormalizedStroke pts = true.
Proof.
  intros Hfar. unfold StrokeInterpolator.normalizeStroke.
  rewrite (degenerate_false epsilon stroke Hfar).
  set (cleaned := StrokeInterpolator.collapse _).
  set (lengths := StrokeInterpolator.arcLengths sqrt cleaned).
  eexists. split; [reflexivity |].
  split; [by rewrite length_map, length_seq |].
  split.
  { apply Forall_forall. intros p Hp.
    apply list_elem_of_In, in_map_iff in Hp as (j & <- & _). done. }
  split.
  { exists (StrokeInterpolator.sample cleaned lengths 0),
      (StrokeInterpolator.sample cleaned lengths 1023).
    repeat split; reflexivity. }
  split; [| apply samples_valid].
  intros i p q Hp Hq.
  apply lookup_samples in Hp as [-> _].
  apply lookup_samples in Hq as [-> _].
  rewrite !t_sample. cbn [num_lt].
  apply Qltb_true_iff, parameterOf_lt. lia.
Qed.

Lemma normalizeStroke_postcondition_witness :
  exists pts : list StrokePoint,
    StrokeInterpolator.normalizeStroke (1 # 1000) sqrtApprox segmentStroke
    = inl pts
    /\ length pts = 1024%nat
    /\ StrokeInterpolator.validateNormalizedStroke pts = true.
Proof.
  destruct (normalizeStroke_postcondition (1 # 1000) sqrtApprox segmentStroke)
    as (pts & Hnorm & Hlen & _ & _ & _ & Hvalid).
  - exists (StrokeInterpolator.mkSourcePoint 0 0 0),
      (StrokeInterpolator.mkSourcePoint 3 4 1).
    split; [left; reflexivity |].
    split; [right; left; reflexivity | reflexivity].
  - exists pts. split; [exact Hnorm | split; [exact Hlen | exact Hvalid]].
Defined.

(* ===================================================================== *)
(** ** More on the stroke bank *)
(* ===================================================================== *)

Section ClearFacts.

Variable fround : num -> num.

Local Open Scope nat_scope.

Lemma zeroFrom_spec s i n data :
  (0 <= s)%Z -> (0 <= i)%Z -> (Z.of_nat (length data) < 2 ^ 53)%Z ->
  Z.to_nat (s + i) + n <= length data ->
  zeroFrom fround (ofZ s) i n data
  = take (Z.to_nat (s + i)) data ++ replicate n (fround (Finite 0))
    ++ drop (Z.to_nat (s + i) + n) data.
Proof.
  intros Hs. revert i data.
  induction n as [|n IH]; intros i data Hi Hbig Hlen.
  - cbn [zeroFrom replicate app]. rewrite Nat.add_0_r, take_drop. done.
  - cbn [zeroFrom]. set (k := Z.to_nat (s + i)) in *.
    rewrite (num_add_ofZ s i) by lia. rewrite typed_store_ofZ.
    unfold typed_set. destruct (0 <=? s + i)%Z eqn:E; [| lia]. fold k.
    rewrite IH; [| lia | rewrite length_insert; lia
                 | rewrite length_insert; lia].
    replace (Z.to_nat (s + (i + 1))) with (S k) by lia.
    rewrite (insert_take_drop data k) by lia.
    assert (Hk : S k = length (take k data ++ [fround (Finite 0)])).
    { rewrite length_app, length_take. simpl. lia. }
    change (take k data ++ fround (Finite 0) :: drop (S k) data)
      with (take k data ++ [fround (Finite 0)] ++ drop (S k) data).
    rewrite (assoc_L (++) (take k data)).
    rewrite (take_app_length' _ _ _ Hk), (drop_app_add' _ _ _ _ Hk).
    rewrite drop_drop, <- (assoc_L (++)). simpl.
    do 3 f_equal. apply (f_equal (fun j => drop j data)). lia.
Qed.

(** A call of [clearStroke] with an integer row index in range returns,
    zeroes that row, leaves the others, and updates the texture once. *)
Lemma clearStroke_success m (strokeIndex : Z) :
  bank_ok m -> (0 <= strokeIndex < 64)%Z ->
  let m' := fst (clearStroke fround m (ofZ strokeIndex)) in
  snd (clearStroke fround m (ofZ strokeIndex)) = None
  /\ row m' (Z.to_nat strokeIndex) = replicate 2048 (fround (Finite 0))
  /\ (forall r, r <> Z.to_nat strokeIndex -> row m' r = row m r)
  /\ strokeTexture m' = strokeTexture m ++ [Float32Array_raw (textureData m')].
Proof.
  intros Hok Hi m'. subst m'.
  destruct (bank_ok_row_bounds m strokeIndex Hok) as [Hk Hb];
    [destruct Hok as (-> & _); done |].
  pose proof (bank_ok_indexable m Hok) as Hbig.
  assert (Hstart : rowStart (ofZ strokeIndex) (pointsPerStroke m)
                   = ofZ (strokeIndex * pointsPerStroke m * 2)).
  { apply bank_ok_rowStart; [exact Hok |]. destruct Hok as (-> & _). done. }
  pose proof Hok as (HC & HN & HL).
  change DRAWING_CONSTANTS.MAX_STROKES with 64%Z in HC.
  change DRAWING_CONSTANTS.POINTS_PER_STROKE with 1024%Z in HN.
  unfold clearStroke. rewrite range_check_ofZ.
  replace ((0 <=? strokeIndex) && (strokeIndex <? maxStrokes m))%Z
    with true by (rewrite HC; lia).
  cbn [negb fst snd]. split; [done |]. rewrite Hstart.
  assert (Hw : Z.to_nat (pointsPerStroke m * 2) = 2048) by (rewrite HN; done).
  assert (Hrow : forall r,
             row (texture_update
                    (set_textureData m
                       (zeroFrom fround (ofZ (strokeIndex * pointsPerStroke m * 2))
                          0 (Z.to_nat (pointsPerStroke m * 2)) (textureData m)))
                    (Float32Array_raw
                       (zeroFrom fround
                          (ofZ (strokeIndex * pointsPerStroke m * 2)) 0
                          (Z.to_nat (pointsPerStroke m * 2)) (textureData m)))) r
             = if decide (r = Z.to_nat strokeIndex)
               then replicate 2048 (fround (Finite 0)) else row m r).
  { intros r. unfold row. cbn [textureData pointsPerStroke texture_update
                               set_textureData].
    rewrite zeroFrom_spec; [| rewrite HN; lia | lia | exact Hbig | ].
    - rewrite Z.mul_0_l, Z.add_0_r in Hk. rewrite Z.add_0_r, Hk.
      rewrite Hw in *.
      apply splice_row; [apply length_replicate | lia].
    - rewrite Z.mul_0_l, Z.add_0_r in Hk. rewrite Z.add_0_r, Hk. lia. }
  split; [| split].
  - rewrite Hrow. by rewrite decide_True.
  - intros r Hr. rewrite Hrow. by rewrite decide_False.
  - done.
Qed.

(** With the index NaN neither comparison holds and no store lands. *)
Lemma clearStroke_NaN m :
  clearStroke fround m NaN
  = (texture_update m (Float32Array_raw (textureData m)), None).
Proof.
  unfold clearStroke. cbn [num_lt num_ge num_le orb].
  rewrite rowStart_NaN, zeroFrom_NaN, set_textureData_same. done.
Qed.

End ClearFacts.

(** X1: [clearStroke] with an integer index throws the index-out-of-range
    error exactly when the index is outside [0, 64), and then changes
    nothing; otherwise it returns, every cell of that row holds the stored
    zero, every other row is unchanged, and the texture is updated once
    with the new data.  With the index NaN it does not throw either: it
    zeroes nothing and updates the texture. *)
Theorem clearStroke_contract (fround : num -> num)
    (m : StrokeTextureManager) (strokeIndex : Z) :
  bank_ok m ->
  let m' := fst (clearStroke fround m (ofZ strokeIndex)) in
  let thrown := snd (clearStroke fround m (ofZ strokeIndex)) in
  (thrown = Some (StrokeIndexOutOfRange (ofZ strokeIndex) 64)
   <-> ~ (0 <= strokeIndex < 64)%Z)
  /\ (thrown = None <-> (0 <= strokeIndex < 64)%Z)
  /\ (thrown <> None -> m' = m)
  /\ (thrown = None ->
      row m' (Z.to_nat strokeIndex) = replicate 2048 (fround (Finite 0))
      /\ (forall r, r <> Z.to_nat strokeIndex -> row m' r = row m r)
      /\ strokeTexture m'
         = strokeTexture m ++ [Float32Array_raw (textureData m')])
  /\ clearStroke fround m NaN
     = (texture_update m (Float32Array_raw (textureData m)), None).
Proof.
  intros Hok m' thrown. subst m' thrown.
  pose proof Hok as (HC & _).
  change DRAWING_CONSTANTS.MAX_STROKES with 64%Z in HC.
  assert (Hnan := clearStroke_NaN fround m).
  destruct (decide (0 <= strokeIndex < 64)%Z) as [Hin | Hout].
  - destruct (clearStroke_success fround m strokeIndex Hok Hin)
      as (Hnone & Hrow & Hothers & Htex).
    rewrite Hnone. repeat split; try done; try tauto.
  - unfold clearStroke. rewrite range_check_ofZ.
    replace ((0 <=? strokeIndex) && (strokeIndex <? maxStrokes m))%Z
      with false by (rewrite HC; lia).
    cbn [negb fst snd]. rewrite HC. repeat split; try done.
Qed.

Lemma clearStroke_contract_witness :
  row (fst (clearStroke fround_exact createStrokeTexture (ofZ 5))) 5%nat
  = replicate 2048 (Finite 0)
  /\ fst (clearStroke fround_exact createStrokeTexture (ofZ 64))
     = createStrokeTexture.
Proof.
  destruct (clearStroke_contract fround_exact createStrokeTexture 5
              bank_ok_createStrokeTexture) as (_ & Hnone & _ & H5 & _).
  destruct (clearStroke_contract fround_exact createStrokeTexture 64
              bank_ok_createStrokeTexture) as (Hsome & _ & H64 & _).
  split.
  - refine (proj1 (H5 _)). apply Hnone. lia.
  - apply H64. rewrite (proj2 Hsome) by lia. discriminate.
Defined.

(** X2: [clearAllStrokes] leaves a texture of the same size in which every
    cell holds the stored zero, and updates the texture once with it. *)
Theorem clearAllStrokes_contract (fround : num -> num)
    (m : StrokeTextureManager) :
  let m' := clearAllStrokes fround m in
  textureData m' = replicate (length (textureData m)) (fround (Finite 0))
  /\ strokeTexture m' = strokeTexture m ++ [Float32Array_raw (textureData m')]
  /\ forall r i c, row m' r !! i = Some c -> c = fround (Finite 0).
Proof.
  intros m'. subst m'. unfold clearAllStrokes.
  cbn [textureData strokeTexture texture_update set_textureData].
  assert (Hmap : forall l : list num,
             map (fun _ => fround (Finite 0)) l
             = replicate (length l) (fround (Finite 0))).
  { induction l as [|a l IH]; [done |]. simpl. by rewrite IH. }
  split; [apply Hmap |]. split; [done |].
  intros r i c. unfold row.
  cbn [textureData pointsPerStroke texture_update set_textureData].
  rewrite Hmap. intros Hc.
  apply lookup_take_Some in Hc as [Hc _].
  rewrite lookup_drop in Hc. apply lookup_replicate in Hc as [-> _]. done.
Qed.

(** X3: clearing a row after uploading into it leaves that row zeroed and
    every other row as it was before the upload. *)
Theorem upload_then_clear (fround : num -> num)
    (m : StrokeTextureManager) (strokeIndex : Z) (pts : list StrokePoint) :
  bank_ok m -> (0 <= strokeIndex < 64)%Z -> length_Z pts = 1024%Z ->
  let m1 := fst (uploadStroke fround m (ofZ strokeIndex) pts) in
  let m2 := fst (clearStroke fround m1 (ofZ strokeIndex)) in
  snd (clearStroke fround m1 (ofZ strokeIndex)) = None
  /\ row m2 (Z.to_nat strokeIndex) = replicate 2048 (fround (Finite 0))
  /\ forall r, r <> Z.to_nat strokeIndex -> row m2 r = row m r.
Proof.
  intros Hok Hi Hn m1 m2. subst m1 m2.
  destruct (uploadStroke_success fround m strokeIndex pts Hok Hi Hn)
    as (_ & _ & Hup).
  pose proof (bank_ok_uploadStroke fround m (ofZ strokeIndex) pts Hok) as Hok1.
  destruct (clearStroke_success fround _ strokeIndex Hok1 Hi)
    as (Hnone & Hrow & Hothers & _).
  split; [exact Hnone |]. split; [exact Hrow |].
  intros r Hr. rewrite Hothers by exact Hr. apply Hup. exact Hr.
Qed.

Lemma upload_then_clear_witness :
  let m1 :=
    fst (uploadStroke fround_exact createStrokeTexture (ofZ 3)
           (replicate (Z.to_nat 1024) unitPoint)) in
  row (fst (clearStroke fround_exact m1 (ofZ 3))) 3%nat
  = replicate 2048 (Finite 0).
Proof.
  intros m1.
  refine (proj1 (proj2 (upload_then_clear fround_exact createStrokeTexture 3
                          (replicate (Z.to_nat 1024) unitPoint) _ _ _))).
  - exact bank_ok_createStrokeTexture.
  - lia.
  - apply length_Z_replicate. lia.
Defined.

(** X4: two uploads.  Into the same row, the second stroke is what the row
    holds; into different rows, each row holds its stroke and every row of
    the bank is the same whichever upload comes first. *)
Theorem upload_twice (fround : num -> num) (m : StrokeTextureManager)
    (i j : Z) (pts1 pts2 : list StrokePoint) :
  bank_ok m -> (0 <= i < 64)%Z -> (0 <= j < 64)%Z ->
  length_Z pts1 = 1024%Z -> length_Z pts2 = 1024%Z ->
  let first_i := fst (uploadStroke fround m (ofZ i) pts1) in
  let first_j := fst (uploadStroke fround m (ofZ j) pts2) in
  let ij := fst (uploadStroke fround first_i (ofZ j) pts2) in
  let ji := fst (uploadStroke fround first_j (ofZ i) pts1) in
  row ij (Z.to_nat j) = encode fround pts2
  /\ (i <> j ->
      row ij (Z.to_nat i) = encode fround pts1
      /\ forall r, row ij r = row ji r).
Proof.
  intros Hok Hi Hj Hn1 Hn2 first_i first_j ij ji. subst first_i first_j ij ji.
  destruct (uploadStroke_success fround m i pts1 Hok Hi Hn1)
    as (_ & Hrow_i & Hoth_i).
  destruct (uploadStroke_success fround m j pts2 Hok Hj Hn2)
    as (_ & Hrow_j & Hoth_j).
  pose proof (bank_ok_uploadStroke fround m (ofZ i) pts1 Hok) as Hok_i.
  pose proof (bank_ok_uploadStroke fround m (ofZ j) pts2 Hok) as Hok_j.
  destruct (uploadStroke_success fround _ j pts2 Hok_i Hj Hn2)
    as (_ & Hrow_ij & Hoth_ij).
  destruct (uploadStroke_success fround _ i pts1 Hok_j Hi Hn1)
    as (_ & Hrow_ji & Hoth_ji).
  split; [exact Hrow_ij |].
  intros Hne. assert (Hnat : Z.to_nat i <> Z.to_nat j) by lia.
  split.
  - rewrite Hoth_ij by exact Hnat. exact Hrow_i.
  - intros r.
    destruct (decide (r = Z.to_nat j)) as [-> | Hrj].
    + rewrite Hrow_ij, Hoth_ji by (intros E; apply Hnat; done). by rewrite Hrow_j.
    + rewrite Hoth_ij by exact Hrj.
      destruct (decide (r = Z.to_nat i)) as [-> | Hri].
      * by rewrite Hrow_i, Hrow_ji.
      * by rewrite Hoth_i, Hoth_ji, Hoth_j.
Qed.

Lemma upload_twice_witness :
  let pts := replicate (Z.to_nat 1024) unitPoint in
  let m1 := fst (uploadStroke fround_exact createStrokeTexture (ofZ 1) pts) in
  row (fst (uploadStroke fround_exact m1 (ofZ 2) pts)) 2%nat
  = encode fround_exact pts.
Proof.
  intros pts m1.
  refine (proj1 (upload_twice fround_exact createStrokeTexture 1 2 pts pts
                   _ _ _ _ _)).
  - exact bank_ok_createStrokeTexture.
  - lia.
  - lia.
  - apply length_Z_replicate. lia.
  - apply length_Z_replicate. lia.
Defined.

(** X5: a stroke that [validateStrokeData] accepts is uploaded without an
    error into any row of the bank; and a stroke rejected by [uploadStroke]
    for its point count is not accepted by the validator. *)
Theorem validated_stroke_uploads (fround : num -> num)
    (m : StrokeTextureManager) (strokeIndex : Z) (pts : list StrokePoint) :
  bank_ok m -> (0 <= strokeIndex < 64)%Z ->
  (valid (validateStrokeData m pts) = true ->
   snd (uploadStroke fround m (ofZ strokeIndex) pts) = None)
  /\ (snd (uploadStroke fround m (ofZ strokeIndex) pts) <> None ->
      valid (validateStrokeData m pts) = false).
Proof.
  intros Hok Hi.
  assert (H : valid (validateStrokeData m pts) = true ->
              snd (uploadStroke fround m (ofZ strokeIndex) pts) = None).
  { intros Hv. apply validateStrokeData_valid_iff in Hv as (Hlen & _).
    destruct Hok as (HC & HN & HL). rewrite HN in Hlen.
    apply (uploadStroke_success fround m strokeIndex pts);
      [done | exact Hi | exact Hlen]. }
  split; [exact H |].
  intros Hthrown. destruct (valid (validateStrokeData m pts)); [| done].
  exfalso. apply Hthrown, H. done.
Qed.

Lemma validated_stroke_uploads_witness :
  snd (uploadStroke fround_exact createStrokeTexture (ofZ 9) constantTStroke)
  = None.
Proof.
  apply (validated_stroke_uploads fround_exact createStrokeTexture 9
           constantTStroke bank_ok_createStrokeTexture).
  - lia.
  - apply validateStrokeData_replicate;
      [exact bank_ok_createStrokeTexture | repeat split | reflexivity].
Defined.

Section ProgressionFacts.

Local Open Scope nat_scope.

Lemma checkPoints_no_decreasing i pts j tb ta :
  ~ In (DecreasingTParameter j tb ta) (checkPoints i pts).
Proof.
  revert i. induction pts as [|p rest IH]; intros i; [intros [] |].
  cbn [checkPoints]. rewrite !in_app_iff. intros [H | [H | H]].
  - destruct (negb (isFinite (x p)) || negb (isFinite (y p)));
      [destruct H as [H | []]; discriminate H | destruct H].
  - destruct (num_lt (t p) (Finite 0) || num_gt (t p) (Finite 1));
      [destruct H as [H | []]; discriminate H | destruct H].
  - exact (IH _ H).
Qed.

(** The error of the second loop names the first decrease. *)
Lemma checkProgression_first i prev rest j tb ta :
  In (DecreasingTParameter j tb ta) (checkProgression i prev rest) ->
  exists k a b,
    j = i + k
    /\ (prev :: rest) !! k = Some a /\ (prev :: rest) !! S k = Some b
    /\ ta = t a /\ tb = t b /\ num_lt tb ta = true
    /\ forall k' p q, k' < k ->
         (prev :: rest) !! k' = Some p -> (prev :: rest) !! S k' = Some q ->
         num_lt (t q) (t p) = false.
Proof.
  revert i prev. induction rest as [|p rest IH]; intros i prev; [intros [] |].
  cbn [checkProgression]. destruct (num_lt (t p) (t prev)) eqn:Elt.
  - intros [H | []]. inversion H; subst.
    exists 0, prev, p. repeat split; try done; try lia.
  - intros H. destruct (IH _ _ H) as (k & a & b & -> & Ha & Hb & -> & -> & Hdec & Hmin).
    exists (S k), a, b. repeat split; try done; try lia.
    intros [|k'] p' q' Hk' Hp Hq.
    + simpl in Hp, Hq. congruence.
    + apply (Hmin k' p' q'); [lia | done | done].
Qed.

End ProgressionFacts.

(** X6: the progression check of [validateStrokeData] stops at the first
    decrease: an error about a decreasing [t] names an index [j >= 1] with
    [t_j < t_(j-1)], carries those two values, no earlier neighbours
    decrease, and no second such error is recorded. *)
Theorem validateStrokeData_first_decrease (m : StrokeTextureManager)
    (pts : list StrokePoint) (j : nat) (tb ta : num) :
  In (DecreasingTParameter j tb ta) (errors (validateStrokeData m pts)) ->
  (exists a b,
      (1 <= j)%nat
      /\ pts !! (j - 1)%nat = Some a /\ pts !! j = Some b
      /\ t a = ta /\ t b = tb /\ num_lt tb ta = true
      /\ forall (k : nat) p q, (S k < j)%nat ->
           pts !! k = Some p -> pts !! S k = Some q ->
           num_lt (t q) (t p) = false)
  /\ forall j' tb' ta',
       In (DecreasingTParameter j' tb' ta') (errors (validateStrokeData m pts)) ->
       j' = j.
Proof.
  assert (Hone : forall j tb ta,
             In (DecreasingTParameter j tb ta)
               (errors (validateStrokeData m pts)) ->
             exists a b,
               (1 <= j)%nat
               /\ pts !! (j - 1)%nat = Some a /\ pts !! j = Some b
               /\ t a = ta /\ t b = tb /\ num_lt tb ta = true
               /\ forall (k : nat) p q, (S k < j)%nat ->
                    pts !! k = Some p -> pts !! S k = Some q ->
                    num_lt (t q) (t p) = false).
  { clear j tb ta. intros j tb ta.
    unfold validateStrokeData. cbn [errors]. rewrite !in_app_iff.
    intros [H | [H | H]].
    - destruct (negb (length_Z pts =? pointsPerStroke m)%Z);
        [destruct H as [H | []]; discriminate H | destruct H].
    - destruct (checkPoints_no_decreasing _ _ _ _ _ H).
    - destruct pts as [|first rest]; [destruct H |].
      apply checkProgression_first in H
        as (k & a & b & -> & Ha & Hb & -> & -> & Hdec & Hmin).
      exists a, b. replace (1 + k - 1)%nat with k by lia.
      repeat split; try done; try lia.
      intros k' p q Hk'. apply Hmin. lia. }
  intros H. split; [exact (Hone _ _ _ H) |].
  intros j' tb' ta' H'.
  destruct (Hone _ _ _ H) as (a & b & Hj & Ha & Hb & <- & <- & Hdec & Hmin).
  destruct (Hone _ _ _ H') as (a' & b' & Hj' & Ha' & Hb' & <- & <- & Hdec' & Hmin').
  destruct (Nat.lt_trichotomy j' j) as [Hlt | [Heq | Hgt]]; [| exact Heq |].
  - exfalso. specialize (Hmin (j' - 1)%nat a' b').
    replace (S (j' - 1)) with j' in Hmin by lia.
    rewrite Hmin in Hdec'; [done | lia | done | done].
  - exfalso. specialize (Hmin' (j - 1)%nat a b).
    replace (S (j - 1)) with j in Hmin' by lia.
    rewrite Hmin' in Hdec; [done | lia | done | done].
Qed.

Lemma validateStrokeData_first_decrease_witness :
  let pts :=
    [ mkStrokePoint (Finite 0) (Finite 0) (Finite 0);
      mkStrokePoint (Finite 0) (Finite 0) (Finite (1 # 2));
      mkStrokePoint (Finite 0) (Finite 0) (Finite (1 # 4));
      mkStrokePoint (Finite 0) (Finite 0) (Finite (1 # 8)) ] in
  exists a b : StrokePoint,
    pts !! 1%nat = Some a /\ pts !! 2%nat = Some b
    /\ num_lt (t b) (t a) = true.
Proof.
  intros pts.
  destruct (proj1 (validateStrokeData_first_decrease createStrokeTexture pts 2
                     (Finite (1 # 4)) (Finite (1 # 2))
                     (or_intror (or_introl eq_refl))))
    as (a & b & _ & Ha & Hb & Hta & Htb & Hlt & _).
  exists a, b. split; [exact Ha |]. split; [exact Hb |].
  rewrite Hta, Htb. exact Hlt.
Defined.

Section BatchEdgeFacts.

Variable fround : num -> num.

(** An entry that does not pass the guards only adds its warning. *)
Lemma uploadStrokes_step_skip m flag e :
  bank_ok m -> applicable e = false ->
  uploadStrokes_step fround (m, flag) e = (console_warn m (warningFor e), flag).
Proof.
  intros (HC & HN & _) Ha. unfold uploadStrokes_step, warningFor.
  unfold applicable in Ha. rewrite HC, HN.
  destruct (num_lt (index e) (ofZ 0)
            || num_ge (index e) (ofZ DRAWING_CONSTANTS.MAX_STROKES))
    eqn:Eidx; [done |].
  cbn [negb andb] in Ha. rewrite Ha. done.
Qed.

Lemma uploadStrokes_loop_skip batch : forall m flag,
  bank_ok m -> existsb applicable batch = false ->
  foldl (uploadStrokes_step fround) (m, flag) batch
  = (mkStrokeTextureManager (strokeTexture m) (maxStrokes m)
       (pointsPerStroke m) (textureData m)
       (console m ++ map warningFor batch), flag).
Proof.
  induction batch as [|e rest IH]; intros m flag Hok Hex.
  - cbn [foldl map]. rewrite app_nil_r. by destruct m.
  - cbn [existsb] in Hex. apply orb_false_iff in Hex as [He Hrest].
    cbn [foldl]. rewrite (uploadStrokes_step_skip m flag e Hok He).
    rewrite IH; [| done | exact Hrest].
    cbn [console_warn strokeTexture maxStrokes pointsPerStroke textureData
         console map].
    by rewrite <- app_assoc.
Qed.

(** One step of the loop keeps the capacity, the row width and the size of
    the texture data, whatever the manager. *)
Lemma uploadStrokes_step_shape st e :
  let st' := uploadStrokes_step fround st e in
  maxStrokes (fst st') = maxStrokes (fst st)
  /\ pointsPerStroke (fst st') = pointsPerStroke (fst st)
  /\ length (textureData (fst st')) = length (textureData (fst st)).
Proof.
  destruct st as [m flag]. unfold uploadStrokes_step.
  destruct (num_lt (index e) (ofZ 0)
            || num_ge (index e) (ofZ (maxStrokes m))); [done |].
  destruct (negb (length_Z (points e) =? pointsPerStroke m)%Z); [done |].
  cbn [fst set_textureData maxStrokes pointsPerStroke textureData].
  by rewrite length_copyPoints.
Qed.

Lemma uploadStrokes_loop_shape batch : forall st,
  let st' := foldl (uploadStrokes_step fround) st batch in
  maxStrokes (fst st') = maxStrokes (fst st)
  /\ pointsPerStroke (fst st') = pointsPerStroke (fst st)
  /\ length (textureData (fst st')) = length (textureData (fst st)).
Proof.
  induction batch as [|e rest IH]; intros st; [done |].
  cbn [foldl]. destruct (uploadStrokes_step_shape st e) as (H1 & H2 & H3).
  destruct (IH (uploadStrokes_step fround st e)) as (H1' & H2' & H3').
  cbn zeta in *. repeat split; congruence.
Qed.

End BatchEdgeFacts.

(** X7: [uploadStrokes] on the empty batch returns the manager as it is;
    on a batch none of whose entries passes the two guards of the loop (an
    index that is NaN passes the first) it leaves the texture data alone,
    sends nothing to the texture, and adds one warning per entry, in
    order. *)
Theorem uploadStrokes_nothing_to_apply (fround : num -> num)
    (m : StrokeTextureManager) (batch : list StrokeEntry) :
  uploadStrokes fround m [] = (m, None)
  /\ (bank_ok m -> existsb applicable batch = false ->
      uploadStrokes fround m batch
      = (mkStrokeTextureManager (strokeTexture m) (maxStrokes m)
           (pointsPerStroke m) (textureData m)
           (console m ++ map warningFor batch), None)).
Proof.
  split; [reflexivity |].
  intros Hok Hex. unfold uploadStrokes.
  rewrite (uploadStrokes_loop_skip fround batch m false Hok Hex). done.
Qed.

Lemma uploadStrokes_nothing_to_apply_witness :
  textureData
    (fst (uploadStrokes fround_exact createStrokeTexture
            [mkStrokeEntry (ofZ 64) []; mkStrokeEntry NaN [unitPoint]]))
  = textureData createStrokeTexture.
Proof.
  rewrite (proj2 (uploadStrokes_nothing_to_apply fround_exact
                    createStrokeTexture
                    [mkStrokeEntry (ofZ 64) []; mkStrokeEntry NaN [unitPoint]])
             bank_ok_createStrokeTexture eq_refl).
  reflexivity.
Defined.

(** X8: a batch of one entry that passes the guards writes the same texture
    data as [uploadStroke] of that entry, but the two send different
    payloads: [uploadStroke] updates the texture with a [Float16Array] made
    from the data, [uploadStrokes] with the [Float32Array] itself. *)
Theorem singleton_batch_versus_uploadStroke (fround : num -> num)
    (m : StrokeTextureManager) (e : StrokeEntry) :
  bank_ok m -> applicable e = true ->
  let single := fst (uploadStroke fround m (index e) (points e)) in
  let batch := fst (uploadStrokes fround m [e]) in
  textureData batch = textureData single
  /\ strokeTexture single
     = strokeTexture m ++ [Float16Array_of (textureData single)]
  /\ strokeTexture batch
     = strokeTexture m ++ [Float32Array_raw (textureData batch)]
  /\ console batch = console m.
Proof.
  intros (HC & HN & _) Ha single batch. subst single batch.
  unfold applicable in Ha.
  apply andb_true_iff in Ha as [Ha Hlen].
  apply negb_true_iff in Ha.
  unfold uploadStrokes, uploadStroke. cbn [foldl uploadStrokes_step].
  rewrite HC, HN, Ha, Hlen. cbn [negb fst snd]. repeat split.
Qed.

Lemma singleton_batch_versus_uploadStroke_witness :
  let e := mkStrokeEntry (ofZ 7) (replicate (Z.to_nat 1024) unitPoint) in
  textureData (fst (uploadStrokes fround_exact createStrokeTexture [e]))
  = textureData
      (fst (uploadStroke fround_exact createStrokeTexture (ofZ 7) (points e))).
Proof.
  intros e.
  refine (proj1 (singleton_batch_versus_uploadStroke fround_exact
                   createStrokeTexture e bank_ok_createStrokeTexture _)).
  unfold applicable, e. cbn [index points].
  rewrite length_Z_replicate by lia. reflexivity.
Defined.

(** X9: on a bank in its invariant, the reported dimensions multiply out to
    the number of cells of the texture data (two per texel), and the
    reported total size is two bytes per cell, all of it counted as used. *)
Theorem memory_report_matches_allocation (m : StrokeTextureManager) :
  bank_ok m ->
  (width (getTextureDimensions m) * height (getTextureDimensions m) * 2
   = length_Z (textureData m))%Z
  /\ (totalBytes (getMemoryInfo m) = 2 * length_Z (textureData m))%Z
  /\ usedBytes (getMemoryInfo m) = totalBytes (getMemoryInfo m)
  /\ (totalBytes (getMemoryInfo m)
      = height (getTextureDimensions m) * bytesPerStroke (getMemoryInfo m))%Z.
Proof.
  intros (HC & HN & HL). unfold getMemoryInfo, getTextureDimensions.
  cbn [width height totalBytes usedBytes bytesPerStroke].
  rewrite HL. repeat split; lia.
Qed.

Lemma memory_report_matches_allocation_witness :
  (totalBytes (getMemoryInfo createStrokeTexture)
   = 2 * length_Z (textureData createStrokeTexture))%Z.
Proof.
  exact (proj1 (proj2 (memory_report_matches_allocation createStrokeTexture
                         bank_ok_createStrokeTexture))).
Defined.

(** X10: no operation of the manager changes the number of rows, the row
    width or the size of the texture data, whatever number it is given as
    index and whether it returns or throws; so the dimensions and the
    memory report never change. *)
Theorem bank_shape_is_fixed (fround : num -> num) (m : StrokeTextureManager)
    (strokeIndex : num) (pts : list StrokePoint) (batch : list StrokeEntry) :
  let same m' :=
    maxStrokes m' = maxStrokes m /\ pointsPerStroke m' = pointsPerStroke m
    /\ length (textureData m') = length (textureData m)
    /\ getTextureDimensions m' = getTextureDimensions m
    /\ getMemoryInfo m' = getMemoryInfo m in
  same (fst (uploadStroke fround m strokeIndex pts))
  /\ same (fst (uploadStrokes fround m batch))
  /\ same (fst (clearStroke fround m strokeIndex))
  /\ same (clearAllStrokes fround m).
Proof.
  intros same.
  assert (Hsame : forall m',
             maxStrokes m' = maxStrokes m ->
             pointsPerStroke m' = pointsPerStroke m ->
             length (textureData m') = length (textureData m) -> same m').
  { intros m' H1 H2 H3. unfold same, getTextureDimensions, getMemoryInfo.
    rewrite H1, H2. done. }
  split; [| split; [| split]]; apply Hsame.
  - unfold uploadStroke.
    by destruct (num_lt strokeIndex (ofZ 0)
                 || num_ge strokeIndex (ofZ (maxStrokes m))),
      (negb (length_Z pts =? pointsPerStroke m)%Z).
  - unfold uploadStroke.
    by destruct (num_lt strokeIndex (ofZ 0)
                 || num_ge strokeIndex (ofZ (maxStrokes m))),
      (negb (length_Z pts =? pointsPerStroke m)%Z).
  - unfold uploadStroke.
    destruct (num_lt strokeIndex (ofZ 0)
              || num_ge strokeIndex (ofZ (maxStrokes m))),
      (negb (length_Z pts =? pointsPerStroke m)%Z); try done.
    cbn [fst texture_update set_textureData textureData].
    apply length_copyPoints.
  - unfold uploadStrokes.
    destruct (uploadStrokes_loop_shape fround batch (m, false)) as (H & _).
    destruct (foldl (uploadStrokes_step fround) (m, false) batch) as [m1 [|]];
      exact H.
  - unfold uploadStrokes.
    destruct (uploadStrokes_loop_shape fround batch (m, false)) as (_ & H & _).
    destruct (foldl (uploadStrokes_step fround) (m, false) batch) as [m1 [|]];
      exact H.
  - unfold uploadStrokes.
    destruct (uploadStrokes_loop_shape fround batch (m, false)) as (_ & _ & H).
    destruct (foldl (uploadStrokes_step fround) (m, false) batch) as [m1 [|]];
      exact H.
  - unfold clearStroke.
    by destruct (num_lt strokeIndex (ofZ 0)
                 || num_ge strokeIndex (ofZ (maxStrokes m))).
  - unfold clearStroke.
    by destruct (num_lt strokeIndex (ofZ 0)
                 || num_ge strokeIndex (ofZ (maxStrokes m))).
  - unfold clearStroke.
    destruct (num_lt strokeIndex (ofZ 0)
              || num_ge strokeIndex (ofZ (maxStrokes m)));
      [done |].
    cbn [fst texture_update set_textureData textureData].
    apply length_zeroFrom.
  - done.
  - done.
  - unfold clearAllStrokes.
    cbn [texture_update set_textureData textureData]. apply length_map.
Qed.

(** X11: whatever number it is given as index, [uploadStroke] sends exactly
    one payload when it returns, a [Float16Array] made from the texture
    data it then holds, and none when it throws; it never prints a
    warning. *)
Theorem uploadStroke_transfers (fround : num -> num)
    (m : StrokeTextureManager) (strokeIndex : num) (pts : list StrokePoint) :
  let m' := fst (uploadStroke fround m strokeIndex pts) in
  let thrown := snd (uploadStroke fround m strokeIndex pts) in
  console m' = console m
  /\ (thrown = None ->
      strokeTexture m' = strokeTexture m ++ [Float16Array_of (textureData m')])
  /\ (thrown <> None ->
      strokeTexture m' = strokeTexture m /\ textureData m' = textureData m).
Proof.
  intros m' thrown. subst m' thrown. unfold uploadStroke.
  destruct (num_lt strokeIndex (ofZ 0)
            || num_ge strokeIndex (ofZ (maxStrokes m)));
    [repeat split; done |].
  destruct (negb (length_Z pts =? pointsPerStroke m)%Z);
    repeat split; done.
Qed.

Lemma uploadStroke_transfers_witness :
  strokeTexture (fst (uploadStroke fround_exact createStrokeTexture (ofZ 64) []))
  = strokeTexture createStrokeTexture.
Proof.
  refine (proj1 (proj2 (proj2 (uploadStroke_transfers fround_exact
                                 createStrokeTexture (ofZ 64) [])) _)).
  discriminate.
Defined.

(** X29: [uploadStroke] with an integer index, on a bank with 64 rows of
    1024 points.  It throws the index-out-of-range error exactly when the
    index is outside [0, 64), and for an index in range throws the
    point-count error exactly when the number of points is not 1024; a call
    that throws leaves the manager, hence every row, as it was; a call that
    returns has replaced row [strokeIndex] by the points (their x and y as
    the [Float32Array] stores them) and left every other row unchanged. *)
Theorem uploadStroke_row_contract (fround : num -> num)
    (m : StrokeTextureManager) (strokeIndex : Z) (pts : list StrokePoint) :
  bank_ok m ->
  let C := 64%Z in
  let N := 1024%Z in
  let m' := fst (uploadStroke fround m (ofZ strokeIndex) pts) in
  let thrown := snd (uploadStroke fround m (ofZ strokeIndex) pts) in
  (thrown = Some (StrokeIndexOutOfRange (ofZ strokeIndex) C)
   <-> ~ (0 <= strokeIndex < C)%Z)
  /\ ((0 <= strokeIndex < C)%Z ->
      (thrown = Some (PointCountMismatch N (length_Z pts))
       <-> length_Z pts <> N))
  /\ (thrown = None <-> (0 <= strokeIndex < C)%Z /\ length_Z pts = N)
  /\ (thrown <> None -> m' = m /\ forall r, row m' r = row m r)
  /\ (thrown = None ->
      row m' (Z.to_nat strokeIndex) = encode fround pts
      /\ forall r, r <> Z.to_nat strokeIndex -> row m' r = row m r).
Proof.
  intros Hok C N m' thrown. subst m' thrown.
  pose proof Hok as (HC & HN & HL).
  change DRAWING_CONSTANTS.MAX_STROKES with C in HC.
  change DRAWING_CONSTANTS.POINTS_PER_STROKE with N in HN.
  destruct (decide (0 <= strokeIndex < C)%Z) as [Hin | Hout].
  - destruct (decide (length_Z pts = N)) as [Heq | Hne].
    + destruct (uploadStroke_success fround m strokeIndex pts Hok Hin Heq)
        as (Hnone & Hrow & Hothers).
      rewrite Hnone. repeat split; try done; try tauto.
    + unfold uploadStroke. rewrite range_check_ofZ.
      replace ((0 <=? strokeIndex) && (strokeIndex <? maxStrokes m))%Z
        with true by (rewrite HC; subst C; lia).
      replace (negb (length_Z pts =? pointsPerStroke m)%Z)
        with true by (rewrite HN; lia).
      cbn [negb fst snd]. rewrite HN.
      repeat split; try done; try tauto.
  - unfold uploadStroke. rewrite range_check_ofZ.
    replace ((0 <=? strokeIndex) && (strokeIndex <? maxStrokes m))%Z
      with false by (rewrite HC; subst C; lia).
    cbn [negb fst snd]. rewrite HC.
    repeat split; try done; try tauto.
Qed.

Lemma uploadStroke_row_contract_witness :
  let m := createStrokeTexture in
  let pts := replicate (Z.to_nat 1024) unitPoint in
  snd (uploadStroke fround_exact m (ofZ 3) pts) = None
  /\ row (fst (uploadStroke fround_exact m (ofZ 3) pts)) 3
     = encode fround_exact pts.
Proof.
  intros m pts.
  destruct (uploadStroke_row_contract fround_exact m 3 pts
              bank_ok_createStrokeTexture)
    as (_ & _ & Hnone & _ & Hrows).
  assert (H : snd (uploadStroke fround_exact m (ofZ 3) pts) = None).
  { apply Hnone. split; [lia | apply length_Z_replicate; lia]. }
  split; [exact H | exact (proj1 (Hrows H))].
Defined.

(** X30: [uploadStrokes] on a batch whose indices are integers.  It never
    throws; every row ends up holding the points of the last entry of the
    batch that addresses it with an index in [0, 64) and exactly 1024
    points, or is unchanged when there is none; every other entry is
    skipped with one warning, in the order of the batch; and the texture is
    updated once, with the final texture data, when at least one entry was
    applied (and not at all otherwise). *)
Theorem uploadStrokes_row_contract (fround : num -> num)
    (m : StrokeTextureManager) (batch : list StrokeEntry) :
  bank_ok m -> integerIndices batch ->
  let m' := fst (uploadStrokes fround m batch) in
  snd (uploadStrokes fround m batch) = None
  /\ (forall r,
        row m' r
        = match last (entriesFor r batch) with
          | Some e => encode fround (points e)
          | None => row m r
          end)
  /\ console m'
     = console m ++ map warningFor (filter (fun e => applicable e = false) batch)
  /\ strokeTexture m'
     = strokeTexture m
       ++ (if existsb applicable batch
           then [Float32Array_raw (textureData m')] else []).
Proof.
  intros Hok Hint m'. subst m'. unfold uploadStrokes.
  destruct (uploadStrokes_loop_spec fround batch m false Hok Hint)
    as (_ & Htex & Hflag & Hcon & Hrow).
  destruct (foldl (uploadStrokes_step fround) (m, false) batch) as [m1 flag1].
  cbn [fst snd] in *. rewrite orb_false_l in Hflag. subst flag1.
  destruct (existsb applicable batch); cbn [fst snd].
  - repeat split; try done. cbn [strokeTexture texture_update]. by rewrite Htex.
  - repeat split; try done. by rewrite app_nil_r.
Qed.

Lemma uploadStrokes_row_contract_witness :
  let m' := fst (uploadStrokes fround_exact createStrokeTexture sampleBatch) in
  console m'
  = console createStrokeTexture
    ++ map warningFor (filter (fun e => applicable e = false) sampleBatch).
Proof.
  intros m'.
  refine (proj1 (proj2 (proj2
            (uploadStrokes_row_contract fround_exact createStrokeTexture
               sampleBatch bank_ok_createStrokeTexture _)))).
  repeat constructor; eexists; reflexivity.
Defined.

Section FractionalIndexFacts.

Import Binary.

Local Open Scope Z_scope.


End FractionalIndexFacts.



(* ===================================================================== *)
(** ** More on the kernels *)
(* ===================================================================== *)

Section UnitWriteFacts.

Import StrokeAnimation UnitWrites.

Local Open Scope Z_scope.

(** The entry point makes exactly the stores listed by [unitWrites]. *)
Lemma perPoint_main_writes (g : Z) (b : Bindings) :
  PerPoint.main g b
  = set_instanceMatrices b (applyWrites (unitWrites g b) (instanceMatrices b)).
Proof.
  unfold PerPoint.main, unitWrites.
  destruct (g / PerPoint.POINTS_PER_STROKE
            >=? u32_of_f32 (maxAnimations (globalParams b))).
  - by destruct b.
  - destruct (Qltb _ _); [reflexivity |].
    fold (PerPoint.reveal
            (loadConfig (launchConfigs b) (g / PerPoint.POINTS_PER_STROKE))
            (g mod PerPoint.POINTS_PER_STROKE)).
    destruct (Qleb _ _); reflexivity.
Qed.

(** The stores do not depend on the matrices. *)
Lemma unitWrites_frame (g : Z) (b : Bindings) (ms : list vec4) :
  unitWrites g (set_instanceMatrices b ms) = unitWrites g b.
Proof. reflexivity. Qed.

(** Without wrap-around the rows of instance [g] are [4 g .. 4 g + 3]. *)
Lemma instance_row (g k : Z) :
  0 <= g < 2 ^ 30 -> 0 <= k < 4 ->
  u32_add (u32_mul g 4) k = 4 * g + k.
Proof.
  intros Hg Hk. unfold u32_add, u32_mul, u32_modulus.
  rewrite (Z.mod_small (g * 4)) by lia. rewrite Z.mod_small by lia. lia.
Qed.

(** Every store of an invocation goes to a row of its own instance. *)
Lemma unitWrites_rows (g : Z) (b : Bindings) (w : Z * vec4) :
  0 <= g < 2 ^ 30 -> In w (unitWrites g b) ->
  4 * g <= fst w <= 4 * g + 3.
Proof.
  intros Hg. unfold unitWrites, hideWrites, transformWrites.
  repeat match goal with
         | |- context [if ?c then _ else _] => destruct c
         end; cbn [In]; intros H;
    repeat (destruct H as [<- | H]; [cbn [fst]; rewrite instance_row; lia |]);
    destruct H.
Qed.

Lemma length_applyWrites (ws : list (Z * vec4)) (ms : list vec4) :
  length (applyWrites ws ms) = length ms.
Proof.
  revert ms. induction ws as [|w ws IH]; intros ms; [done |].
  cbn [applyWrites foldl]. fold (applyWrites ws (store ms (fst w) (snd w))).
  rewrite IH. unfold store. apply length_insert.
Qed.

(** A position that no store addresses keeps its value. *)
Lemma applyWrites_other (ws : list (Z * vec4)) (ms : list vec4) (j : nat) :
  (forall w, In w ws -> Z.to_nat (fst w) <> j) ->
  applyWrites ws ms !! j = ms !! j.
Proof.
  revert ms. induction ws as [|w ws IH]; intros ms Hj; [done |].
  cbn [applyWrites foldl]. fold (applyWrites ws (store ms (fst w) (snd w))).
  rewrite IH by (intros w' Hw'; apply Hj; by right).
  unfold store. apply list_lookup_insert_ne. apply Hj. by left.
Qed.

(** A store commutes with a list of stores to other positions. *)
Lemma store_applyWrites (ws : list (Z * vec4)) (ms : list vec4) (w : Z * vec4) :
  (forall w', In w' ws -> Z.to_nat (fst w') <> Z.to_nat (fst w)) ->
  store (applyWrites ws ms) (fst w) (snd w)
  = applyWrites ws (store ms (fst w) (snd w)).
Proof.
  revert ms. induction ws as [|w' ws IH]; intros ms Hd; [done |].
  cbn [applyWrites foldl].
  fold (applyWrites ws (store ms (fst w') (snd w'))).
  fold (applyWrites ws (store (store ms (fst w) (snd w)) (fst w') (snd w'))).
  rewrite IH by (intros w'' Hw''; apply Hd; by right).
  f_equal. unfold store. apply list_insert_insert_ne.
  intros E. apply (Hd w'); [by left | done].
Qed.

(** Two lists of stores to disjoint positions commute. *)
Lemma applyWrites_commute (ws1 ws2 : list (Z * vec4)) (ms : list vec4) :
  (forall w1 w2, In w1 ws1 -> In w2 ws2 ->
                 Z.to_nat (fst w1) <> Z.to_nat (fst w2)) ->
  applyWrites ws1 (applyWrites ws2 ms) = applyWrites ws2 (applyWrites ws1 ms).
Proof.
  revert ms. induction ws1 as [|w ws1 IH]; intros ms Hd; [done |].
  cbn [applyWrites foldl].
  fold (applyWrites ws1 (store (applyWrites ws2 ms) (fst w) (snd w))).
  fold (applyWrites ws1 (store ms (fst w) (snd w))).
  rewrite store_applyWrites
    by (intros w2 Hw2 E; apply (Hd w w2); [by left | done | done]).
  apply IH. intros w1 w2 H1 H2. apply Hd; [by right | done].
Qed.

End UnitWriteFacts.

Section KernelExtras.

Import StrokeAnimation UnitWrites.

Local Open Scope Q_scope.

Lemma clamp_bounds (v lo hi : Q) :
  lo <= hi -> lo <= Wgsl.clamp v lo hi <= hi.
Proof.
  intros H. unfold Wgsl.clamp. split.
  - apply Q.min_glb; [apply Q.le_max_r | exact H].
  - apply Q.le_min_r.
Qed.

Lemma clamp_below (v lo hi : Q) : v <= lo -> Wgsl.clamp v lo hi <= lo.
Proof.
  intros H. unfold Wgsl.clamp.
  eapply Qle_trans; [apply Q.le_min_l |].
  apply Q.max_lub; [exact H | apply Qle_refl].
Qed.

Lemma clamp_above (v lo hi : Q) : lo <= hi -> hi <= v -> Wgsl.clamp v lo hi == hi.
Proof.
  intros Hlh H. unfold Wgsl.clamp. apply Q.min_r.
  eapply Qle_trans; [exact H | apply Q.le_max_l].
Qed.

(** The ramp is nondecreasing in [pct] as well when [0 < e]. *)
Lemma ramp_mono_pct (pct1 pct2 phase e : Q) :
  0 < e -> pct1 <= pct2 ->
  (phase - 1 + pct1 * (1 + e)) / e <= (phase - 1 + pct2 * (1 + e)) / e.
Proof.
  intros He Hp. unfold Qdiv.
  apply Qmult_le_compat_r; [| apply Qlt_le_weak, Qinv_lt_0_compat, He].
  assert (pct1 * (1 + e) <= pct2 * (1 + e))
    by (apply Qmult_le_compat_r; lra).
  lra.
Qed.

Lemma pointProgress_mono (i j : Z) :
  (i <= j)%Z ->
  f32_of_u32 i / f32_of_u32 PerPoint.POINTS_PER_STROKE
  <= f32_of_u32 j / f32_of_u32 PerPoint.POINTS_PER_STROKE.
Proof.
  intros H. unfold Qdiv. apply Qmult_le_compat_r; [| done].
  unfold f32_of_u32. rewrite <- Zle_Qle. exact H.
Qed.

Lemma pointProgress_range (i : Z) :
  (0 <= i < 1024)%Z ->
  0 <= f32_of_u32 i / f32_of_u32 PerPoint.POINTS_PER_STROKE < 1.
Proof.
  intros [H0 H1]. unfold f32_of_u32, PerPoint.POINTS_PER_STROKE. split.
  - apply Qle_shift_div_l; [done |]. rewrite Qmult_0_l.
    change 0 with (inject_Z 0). rewrite <- Zle_Qle. exact H0.
  - apply Qlt_shift_div_r; [done |]. rewrite Qmult_1_l.
    rewrite <- Zlt_Qlt. exact H1.
Qed.

Lemma reveal_bounds (config : LaunchConfig) (pointIndex : Z) :
  0 <= PerPoint.reveal config pointIndex <= 0.9999.
Proof. unfold PerPoint.reveal. apply clamp_bounds. done. Qed.

Lemma ramp_unit (pct phase : Q) :
  (phase - 1 + pct * (1 + 1)) / 1 == phase - 1 + pct * 2.
Proof. field. Qed.

Lemma reveal_at_start (config : LaunchConfig) (pointIndex : Z) :
  (0 <= pointIndex < 1024)%Z -> phase config <= 0 ->
  PerPoint.reveal config pointIndex <= 0.
Proof.
  intros Hp H0. unfold PerPoint.reveal, phaser.
  pose proof (pointProgress_range pointIndex Hp) as [_ Hlt].
  apply clamp_below, clamp_below. rewrite ramp_unit. lra.
Qed.

Lemma reveal_at_end (config : LaunchConfig) (pointIndex : Z) :
  (0 <= pointIndex < 1024)%Z -> 1 <= phase config ->
  PerPoint.reveal config pointIndex == 0.9999.
Proof.
  intros Hp H1. unfold PerPoint.reveal, phaser.
  pose proof (pointProgress_range pointIndex Hp) as [Hge _].
  apply clamp_above; [done |].
  assert (H : Wgsl.clamp
                ((f32_of_u32 pointIndex / f32_of_u32 PerPoint.POINTS_PER_STROKE
                  - 1 + phase config * (1 + 1)) / 1) 0 1 == 1)
    by (apply clamp_unit_top; rewrite ramp_unit; lra).
  rewrite H. done.
Qed.

(** What an invocation does for an active record, by its reveal value. *)
Lemma perPoint_active_unit (b : Bindings) (slot pointIndex : Z)
    (config : LaunchConfig) :
  (0 <= slot < u32_of_f32 (maxAnimations (globalParams b)))%Z ->
  (0 <= pointIndex < 1024)%Z ->
  launchConfigs b !! Z.to_nat slot = Some config ->
  Qltb (active config) 0.5 = false ->
  let g := (slot * 1024 + pointIndex)%Z in
  let r := PerPoint.reveal config pointIndex in
  (Qle_bool r PerPoint.revealThreshold = true ->
   PerPoint.main g b = setInactiveInstance g b)
  /\ (Qle_bool r PerPoint.revealThreshold = false ->
      exists ndc, PerPoint.main g b
                  = buildTransformMatrix g ndc (PerPoint.markerSize * r) b).
Proof.
  intros Hslot Hpoint Hcfg Hact g r.
  destruct (decode_globalIndex slot pointIndex Hpoint) as [Hdiv Hmod].
  change (slot * 1024 + pointIndex)%Z with g in Hdiv, Hmod.
  unfold PerPoint.main. rewrite Hdiv, Hmod.
  replace (slot >=? _)%Z with false by lia.
  rewrite (loadConfig_lookup _ _ _ Hcfg), Hact.
  fold (PerPoint.reveal config pointIndex). fold r.
  unfold Qleb. fold PerPoint.revealThreshold.
  split; intros ->; [reflexivity | eexists; reflexivity].
Qed.

End KernelExtras.

Section KernelContract.

Import StrokeAnimation UnitWrites.

Local Open Scope Q_scope.


(** C3: the unit of work (slot, pointIndex), for a slot below the number of
    animation slots whose record carries the flag [active] (0 or 1), read
    back from the instance buffer after the invocation.  The invocation
    leaves the record buffer, the parameters and the stroke texture as they
    are and keeps the length of the instance buffer.  If the record is
    inactive or the reveal value is at most the threshold 0.001, it stores
    the off-screen translation into row 3 of its instance, which lies
    outside the camera's view, and, when the four rows of the instance lie
    in the buffer, that row reads back as the off-screen translation and
    every other row of the buffer is as before.  Otherwise it stores one
    transform, and the four rows of the instance read back as the uniform
    scale 0.003 * reveal on the diagonal and the device-space position of
    the interpolated, transformed point as translation, every row of the
    other instances being as before. *)
Theorem perPoint_unit_output (b : Bindings)
    (slot pointIndex : Z) (config : LaunchConfig) :
  let K := u32_of_f32 (maxAnimations (globalParams b)) in
  (0 <= slot < K)%Z ->
  (0 <= pointIndex < 1024)%Z ->
  launchConfigs b !! Z.to_nat slot = Some config ->
  (active config == 0 \/ active config == 1) ->
  let globalIndex := (slot * 1024 + pointIndex)%Z in
  let reveal := PerPoint.reveal config pointIndex in
  let base := u32_mul globalIndex 4 in
  let ms := instanceMatrices b in
  let after := PerPoint.main globalIndex b in
  let row (k : Z) := instanceMatrices after !! Z.to_nat (4 * globalIndex + k) in
  let inBuffer := (4 * globalIndex + 3 < length_Z ms <= 2 ^ 32)%Z in
  let culled :=
    Qeq_bool (active config) 0 || Qle_bool reveal PerPoint.revealThreshold in
  (launchConfigs after = launchConfigs b
   /\ globalParams after = globalParams b
   /\ strokeTexture after = strokeTexture b
   /\ length (instanceMatrices after) = length ms)
  /\ (culled = true ->
      after = set_instanceMatrices b (store ms (u32_add base 3) offscreen)
      /\ ~ DrawingScene.inView (v0 offscreen) (v1 offscreen)
      /\ (inBuffer ->
          row 3%Z = Some offscreen
          /\ forall j : nat,
               j <> Z.to_nat (4 * globalIndex + 3) ->
               instanceMatrices after !! j = ms !! j))
  /\ (culled = false ->
      let s := PerPoint.markerSize * reveal in
      let pointProgress :=
        f32_of_u32 pointIndex / f32_of_u32 PerPoint.POINTS_PER_STROKE in
      let strokePointA :=
        sampleStroke b (u32_of_f32 (strokeAIndex config)) pointProgress in
      let strokePointB :=
        sampleStroke b (u32_of_f32 (strokeBIndex config)) pointProgress in
      let canvasPos :=
        transformToCanvas
          (mix2 strokePointA strokePointB (interpolationT config)) config in
      let ndc :=
        canvasToNDC canvasPos (canvasWidth (globalParams b))
          (canvasHeight (globalParams b)) in
      after
      = set_instanceMatrices b
          (store
             (store
                (store
                   (store ms (u32_add base 0) (mkvec4 s 0 0 0))
                   (u32_add base 1) (mkvec4 0 s 0 0))
                (u32_add base 2) (mkvec4 0 0 1 0))
             (u32_add base 3) (mkvec4 (vx ndc) (vy ndc) 0 1))
      /\ (inBuffer ->
          row 0%Z = Some (mkvec4 s 0 0 0)
          /\ row 1%Z = Some (mkvec4 0 s 0 0)
          /\ row 2%Z = Some (mkvec4 0 0 1 0)
          /\ row 3%Z = Some (mkvec4 (vx ndc) (vy ndc) 0 1)
          /\ forall j : nat,
               (Z.of_nat j < 4 * globalIndex
                \/ 4 * globalIndex + 3 < Z.of_nat j)%Z ->
               instanceMatrices after !! j = ms !! j)).
Proof.
  intros K Hslot Hpoint Hcfg Hflag globalIndex reveal base ms after row
    inBuffer culled.
  split.
  { subst after. rewrite perPoint_main_writes.
    cbn [launchConfigs globalParams strokeTexture instanceMatrices
         set_instanceMatrices].
    repeat split. apply length_applyWrites. }
  destruct (decode_globalIndex slot pointIndex Hpoint) as [Hdiv Hmod].
  change (slot * 1024 + pointIndex)%Z with globalIndex in Hdiv, Hmod.
  assert (Hmain :
    after
    = if culled
      then set_instanceMatrices b (store ms (u32_add base 3) offscreen)
      else
        let s := PerPoint.markerSize * reveal in
        let pointProgress :=
          f32_of_u32 pointIndex / f32_of_u32 PerPoint.POINTS_PER_STROKE in
        let strokePointA :=
          sampleStroke b (u32_of_f32 (strokeAIndex config)) pointProgress in
        let strokePointB :=
          sampleStroke b (u32_of_f32 (strokeBIndex config)) pointProgress in
        let canvasPos :=
          transformToCanvas
            (mix2 strokePointA strokePointB (interpolationT config)) config in
        let ndc :=
          canvasToNDC canvasPos (canvasWidth (globalParams b))
            (canvasHeight (globalParams b)) in
        set_instanceMatrices b
          (store
             (store
                (store
                   (store ms (u32_add base 0) (mkvec4 s 0 0 0))
                   (u32_add base 1) (mkvec4 0 s 0 0))
                (u32_add base 2) (mkvec4 0 0 1 0))
             (u32_add base 3) (mkvec4 (vx ndc) (vy ndc) 0 1))).
  { subst after culled. unfold PerPoint.main. rewrite Hdiv, Hmod.
    replace (slot >=? _)%Z with false by (subst K; lia).
    rewrite (loadConfig_lookup _ _ _ Hcfg).
    fold (PerPoint.reveal config pointIndex). fold reveal.
    unfold Qleb. fold PerPoint.revealThreshold.
    destruct Hflag as [H0 | H1].
    - assert (Ht : Qltb (active config) 0.5 = true)
        by (apply Qltb_true_iff; rewrite H0; reflexivity).
      assert (He : Qeq_bool (active config) 0 = true)
        by (apply Qeq_bool_iff; exact H0).
      rewrite Ht, He. reflexivity.
    - assert (Ht : Qltb (active config) 0.5 = false).
      { destruct (Qltb (active config) 0.5) eqn:E; [| done].
        apply Qltb_true_iff in E. rewrite H1 in E. discriminate E. }
      assert (He : Qeq_bool (active config) 0 = false).
      { destruct (Qeq_bool (active config) 0) eqn:E; [| done].
        apply Qeq_bool_iff in E. rewrite H1 in E. discriminate E. }
      rewrite Ht, He. cbn [orb].
      destruct (Qle_bool reveal PerPoint.revealThreshold); reflexivity. }
  assert (Hg0 : (0 <= globalIndex)%Z) by (subst globalIndex; lia).
  split; intros Hc; rewrite Hc in Hmain.
  - split; [exact Hmain |]. split; [exact offscreen_not_inView |].
    intros Hin. subst row inBuffer. cbv beta in *. unfold length_Z in Hin.
    rewrite Hmain. cbn [instanceMatrices set_instanceMatrices].
    subst base. rewrite instance_row by lia. unfold store. split.
    + apply list_lookup_insert_eq. lia.
    + intros j Hj. apply list_lookup_insert_ne. intros E. apply Hj.
      symmetry. exact E.
  - cbv zeta in Hmain. cbv zeta. split; [exact Hmain |].
    intros Hin. subst row inBuffer. cbv beta in *. unfold length_Z in Hin.
    rewrite Hmain. cbn [instanceMatrices set_instanceMatrices].
    subst base. rewrite !instance_row by lia. unfold store.
    repeat split;
      try (repeat first
             [ rewrite list_lookup_insert_eq by (rewrite ?length_insert; lia)
             | rewrite list_lookup_insert_ne by lia ];
           reflexivity).
    intros j Hj. rewrite !list_lookup_insert_ne by lia. reflexivity.
Qed.

Lemma perPoint_unit_output_witness :
  let s := PerPoint.markerSize * PerPoint.reveal sampleConfig 2 in
  instanceMatrices (PerPoint.main 2 (sampleBindings 1)) !! 8%nat
  = Some (mkvec4 s 0 0 0)
  /\ instanceMatrices (PerPoint.main 2 (sampleBindings 1)) !! 9%nat
     = Some (mkvec4 0 s 0 0)
  /\ instanceMatrices (PerPoint.main 2 (sampleBindings 1)) !! 10%nat
     = Some (mkvec4 0 0 1 0)
  /\ instanceMatrices (PerPoint.main 2 (sampleBindings 1)) !! 0%nat
     = instanceMatrices (sampleBindings 1) !! 0%nat.
Proof.
  assert (H1 : (0 <= 0 < u32_of_f32
                         (maxAnimations (globalParams (sampleBindings 1))))%Z)
    by (vm_compute; split; [discriminate | reflexivity]).
  assert (H2 : (0 <= 2 < 1024)%Z) by lia.
  assert (H3 : launchConfigs (sampleBindings 1) !! Z.to_nat 0 = Some sampleConfig)
    by reflexivity.
  assert (H4 : active sampleConfig == 0 \/ active sampleConfig == 1)
    by (right; reflexivity).
  pose proof (perPoint_unit_output (sampleBindings 1) 0 2 sampleConfig
                H1 H2 H3 H4) as H.
  cbv zeta in H. destruct H as (_ & _ & H).
  assert (Hc : Qeq_bool (active sampleConfig) 0
               || Qle_bool (PerPoint.reveal sampleConfig 2)
                    PerPoint.revealThreshold = false)
    by (vm_compute; reflexivity).
  destruct (H Hc) as (_ & Hrows).
  assert (Hin : (4 * (0 * 1024 + 2) + 3
                 < length_Z (instanceMatrices (sampleBindings 1)) <= 2 ^ 32)%Z)
    by (vm_compute; split; [reflexivity | discriminate]).
  destruct (Hrows Hin) as (R0 & R1 & R2 & _ & Hother).
  cbv zeta. split; [exact R0 |]. split; [exact R1 |]. split; [exact R2 |].
  apply Hother. left. reflexivity.
Defined.


End KernelContract.

Section KernelProperties.

Import StrokeAnimation UnitWrites.

Local Open Scope Q_scope.

(** X12: the reveal value of every point lies in [0, 0.9999], so the scale
    of an emitted marker, 0.003 times the reveal value, never reaches the
    base size 0.003; and a point that is not culled has a reveal value above
    the threshold 0.001. *)
Theorem reveal_and_scale_bounds (config : LaunchConfig) (pointIndex : Z) :
  let r := PerPoint.reveal config pointIndex in
  0 <= r <= 0.9999
  /\ 0 <= PerPoint.markerSize * r < PerPoint.markerSize
  /\ (Qle_bool r PerPoint.revealThreshold = false -> 0.001 < r).
Proof.
  intros r. pose proof (reveal_bounds config pointIndex) as [H0 H1].
  fold r in H0, H1. unfold PerPoint.markerSize.
  split; [done |]. split; [split; lra |].
  intros Hle. apply Qnot_le_lt. intros Hc.
  apply Qle_bool_iff in Hc. unfold PerPoint.revealThreshold in Hle.
  rewrite Hc in Hle. discriminate Hle.
Qed.

Lemma reveal_and_scale_bounds_witness :
  0.001 < PerPoint.reveal sampleConfig 2.
Proof.
  apply (reveal_and_scale_bounds sampleConfig 2). reflexivity.
Defined.

(** X13: at the two ends of an animation.  For an active record with
    [phase <= 0] the unit of every point hides its instance; with
    [phase >= 1] the unit of every point emits a transform, and its reveal
    value is the cap 0.9999. *)
Theorem units_at_start_and_end (b : Bindings) (slot pointIndex : Z)
    (config : LaunchConfig) :
  (0 <= slot < u32_of_f32 (maxAnimations (globalParams b)))%Z ->
  (0 <= pointIndex < 1024)%Z ->
  launchConfigs b !! Z.to_nat slot = Some config ->
  Qltb (active config) 0.5 = false ->
  let g := (slot * 1024 + pointIndex)%Z in
  (phase config <= 0 -> PerPoint.main g b = setInactiveInstance g b)
  /\ (1 <= phase config ->
      PerPoint.reveal config pointIndex == 0.9999
      /\ exists ndc,
           PerPoint.main g b
           = buildTransformMatrix g ndc
               (PerPoint.markerSize * PerPoint.reveal config pointIndex) b).
Proof.
  intros Hslot Hpoint Hcfg Hact g.
  destruct (perPoint_active_unit b slot pointIndex config Hslot Hpoint Hcfg Hact)
    as [Hhide Hemit].
  split.
  - intros H0. apply Hhide. apply Qle_bool_iff.
    eapply Qle_trans; [apply (reveal_at_start config pointIndex Hpoint H0) |].
    done.
  - intros H1. pose proof (reveal_at_end config pointIndex Hpoint H1) as Hr.
    split; [exact Hr |]. apply Hemit.
    destruct (Qle_bool _ _) eqn:E; [| done].
    apply Qle_bool_iff in E. rewrite Hr in E.
    exfalso. revert E. apply Qlt_not_le. reflexivity.
Qed.

Lemma units_at_start_and_end_witness :
  let finished :=
    mkLaunchConfig 0 1 (1 # 2) 2 2 640 360 1 1 1 0 0 in
  let b :=
    mkBindings (replicate 16 (mkvec4 0 0 0 0)) [finished]
      (DrawingScene.globalParams 1 (1 # 60)) (fun _ => mkvec2 0 0) in
  PerPoint.reveal finished 0 == 0.9999.
Proof.
  intros finished b.
  refine (proj1 (proj2 (units_at_start_and_end b 0 0 finished _ _ _ _) _)).
  - vm_compute. split; [discriminate | reflexivity].
  - lia.
  - reflexivity.
  - reflexivity.
  - discriminate.
Defined.

(** X14: the reveal value of a point never decreases when the record's
    phase grows, and for a fixed phase it never decreases along the stroke:
    a point with a larger index has at least the reveal value of a point
    with a smaller one. *)
Theorem reveal_monotone (c1 c2 : LaunchConfig) (i j : Z) :
  phase c1 <= phase c2 -> (i <= j)%Z ->
  PerPoint.reveal c1 i <= PerPoint.reveal c2 j.
Proof.
  intros Hphase Hij. unfold PerPoint.reveal, phaser.
  apply clamp_mono, clamp_mono.
  eapply Qle_trans.
  - apply ramp_mono; [done | apply (pointProgress_mono i j Hij)].
  - apply ramp_mono_pct; [done | exact Hphase].
Qed.

Lemma reveal_monotone_witness :
  PerPoint.reveal sampleConfig 2 <= PerPoint.reveal sampleConfig 900.
Proof.
  apply (reveal_monotone sampleConfig sampleConfig 2 900).
  - apply Qle_refl.
  - lia.
Defined.

Local Open Scope Z_scope.

(** X15: two invocations of the per-point entry point with different
    global indices (below 2^30, so that the row arithmetic does not wrap)
    commute: the bindings after both are the same in either order. *)
Theorem perPoint_invocations_commute (g1 g2 : Z) (b : Bindings) :
  0 <= g1 < 2 ^ 30 -> 0 <= g2 < 2 ^ 30 -> g1 <> g2 ->
  PerPoint.main g1 (PerPoint.main g2 b) = PerPoint.main g2 (PerPoint.main g1 b).
Proof.
  intros H1 H2 Hne.
  rewrite (perPoint_main_writes g2 b), (perPoint_main_writes g1 b).
  rewrite (perPoint_main_writes g1), (perPoint_main_writes g2).
  rewrite !unitWrites_frame.
  cbn [instanceMatrices set_instanceMatrices launchConfigs globalParams
       strokeTexture].
  f_equal. apply applyWrites_commute.
  intros w1 w2 Hw1 Hw2.
  pose proof (unitWrites_rows g1 b w1 H1 Hw1).
  pose proof (unitWrites_rows g2 b w2 H2 Hw2). lia.
Qed.

Lemma perPoint_invocations_commute_witness :
  PerPoint.main 2 (PerPoint.main 3 (sampleBindings 1))
  = PerPoint.main 3 (PerPoint.main 2 (sampleBindings 1)).
Proof.
  apply (perPoint_invocations_commute 2 3 (sampleBindings 1)); lia.
Defined.

(** X16: an invocation of the per-point entry point changes nothing but
    the four rows of its own instance: the matrix buffer keeps its length,
    every other row keeps its value, and the record buffer, the parameters
    and the texture are the same. *)
Theorem perPoint_touches_own_rows_only (g : Z) (b : Bindings) :
  0 <= g < 2 ^ 30 ->
  length (instanceMatrices (PerPoint.main g b)) = length (instanceMatrices b)
  /\ (forall j : nat,
         (Z.of_nat j < 4 * g \/ 4 * g + 3 < Z.of_nat j) ->
         instanceMatrices (PerPoint.main g b) !! j = instanceMatrices b !! j)
  /\ launchConfigs (PerPoint.main g b) = launchConfigs b
  /\ globalParams (PerPoint.main g b) = globalParams b
  /\ strokeTexture (PerPoint.main g b) = strokeTexture b.
Proof.
  intros Hg. rewrite (perPoint_main_writes g b).
  cbn [instanceMatrices set_instanceMatrices launchConfigs globalParams
       strokeTexture].
  split; [apply length_applyWrites |]. split; [| done].
  intros j Hj. apply applyWrites_other. intros w Hw.
  pose proof (unitWrites_rows g b w Hg Hw). lia.
Qed.

Lemma perPoint_touches_own_rows_only_witness :
  instanceMatrices (PerPoint.main 2 (sampleBindings 1)) !! 7%nat
  = instanceMatrices (sampleBindings 1) !! 7%nat.
Proof.
  refine (proj1 (proj2 (perPoint_touches_own_rows_only 2 (sampleBindings 1) _))
            7%nat _); lia.
Defined.

(** X17: the rows of an instance read back as written.  After
    [buildTransformMatrix] the four rows are the scale rows, the fixed
    third row and the translation; [setInactiveInstance] afterwards
    replaces the translation by the off-screen one and keeps the other
    three rows, scale included. *)
Theorem instance_rows_read_back (i : Z) (position : vec2) (s : Q)
    (b : Bindings) :
  0 <= i < 2 ^ 30 ->
  4 * i + 3 < Z.of_nat (length (instanceMatrices b)) ->
  let built := buildTransformMatrix i position s b in
  let hidden := setInactiveInstance i built in
  let rowOf (b' : Bindings) (k : Z) :=
    instanceMatrices b' !! Z.to_nat (4 * i + k) in
  rowOf built 0 = Some (mkvec4 s 0 0 0)
  /\ rowOf built 1 = Some (mkvec4 0 s 0 0)
  /\ rowOf built 2 = Some (mkvec4 0 0 1 0)
  /\ rowOf built 3 = Some (mkvec4 (vx position) (vy position) 0 1)
  /\ rowOf hidden 0 = Some (mkvec4 s 0 0 0)
  /\ rowOf hidden 1 = Some (mkvec4 0 s 0 0)
  /\ rowOf hidden 2 = Some (mkvec4 0 0 1 0)
  /\ rowOf hidden 3 = Some offscreen.
Proof.
  intros Hi Hlen built hidden rowOf. subst built hidden rowOf.
  unfold setInactiveInstance, buildTransformMatrix.
  cbn [instanceMatrices set_instanceMatrices].
  rewrite !instance_row by lia. unfold store.
  repeat split;
    repeat first
      [ rewrite list_lookup_insert_eq by (rewrite ?length_insert; lia)
      | rewrite list_lookup_insert_ne by lia ];
    reflexivity.
Qed.

Lemma instance_rows_read_back_witness :
  instanceMatrices
    (setInactiveInstance 1
       (buildTransformMatrix 1 (mkvec2 0 0) 1 (sampleBindings 1)))
  !! Z.to_nat (4 * 1 + 0)
  = Some (mkvec4 1 0 0 0).
Proof.
  refine (proj1 (proj2 (proj2 (proj2 (proj2
            (instance_rows_read_back 1 (mkvec2 0 0) 1 (sampleBindings 1) _ _))))));
    [lia | vm_compute; reflexivity].
Defined.

End KernelProperties.

Section SceneKernelContract.

Import StrokeAnimation.

Local Open Scope Q_scope.



Local Open Scope Z_scope.

(** X19: the matrix buffer the scene allocates has room for the rows of
    every dispatched invocation: it holds four [vec4] per instance, and for
    every global index of a dispatch the four row indices the kernel
    computes are [4 g + k] without wrap-around and lie inside the buffer. *)
Theorem dispatch_writes_in_bounds (g k : Z) :
  In g DrawingScene.dispatchedIndices -> 0 <= k < 4 ->
  SceneBuffers.matrixBufferVec4s = 4 * DrawingScene.maxInstances
  /\ u32_add (u32_mul g 4) k = 4 * g + k
  /\ 0 <= u32_add (u32_mul g 4) k < SceneBuffers.matrixBufferVec4s.
Proof.
  intros Hg Hk.
  assert (Hrange : 0 <= g < 65536).
  { pose proof (dispatchedIndices_slots g Hg) as Hslot.
    unfold PerPoint.POINTS_PER_STROKE in Hslot.
    Z.to_euclidean_division_equations. lia. }
  split; [reflexivity |].
  rewrite instance_row by lia.
  change SceneBuffers.matrixBufferVec4s with 262144. lia.
Qed.

Lemma dispatch_writes_in_bounds_witness :
  u32_add (u32_mul 7 4) 3 = 4 * 7 + 3.
Proof.
  refine (proj1 (proj2 (dispatch_writes_in_bounds 7 3 _ _))); [| lia].
  unfold DrawingScene.dispatchedIndices.
  apply in_map_iff. exists 7%nat. split; [reflexivity |].
  apply in_seq.
  assert (E : DrawingScene.workgroups * DrawingScene.workgroupSize = 65536)
    by reflexivity.
  rewrite E. lia.
Defined.

End SceneKernelContract.

Section PerAnimationFacts.

Import StrokeAnimation.

Local Open Scope Q_scope.



End PerAnimationFacts.

Section PerAnimationProperties.

Import StrokeAnimation.

Local Open Scope Q_scope.



End PerAnimationProperties.

(* ===================================================================== *)
(** ** The square of the stroke generator *)
(* ===================================================================== *)

Section SquareFacts.

Import StrokeDataGenerator.

Local Open Scope nat_scope.

Lemma progress_unit (i pointsPerSide : nat) :
  1 <= pointsPerSide -> i <= pointsPerSide ->
  (0 <= ofNat i / ofNat pointsPerSide <= 1)%Q.
Proof.
  intros Hp Hi. unfold ofNat.
  assert (0 < inject_Z (Z.of_nat pointsPerSide))%Q
    by (change 0%Q with (inject_Z 0); rewrite <- Zlt_Qlt; lia).
  assert (0 <= inject_Z (Z.of_nat i))%Q
    by (change 0%Q with (inject_Z 0); rewrite <- Zle_Qle; lia).
  assert (inject_Z (Z.of_nat i) <= inject_Z (Z.of_nat pointsPerSide))%Q
    by (rewrite <- Zle_Qle; lia).
  split.
  - apply Qle_shift_div_l; [done | lra].
  - apply Qle_shift_div_r; [done | lra].
Qed.

(** [t = k / (pointCount - 1)] stays in [0, 1] up to the last index and
    grows with [k]. *)
Lemma tAt_range (k pointCount : nat) :
  2 <= pointCount -> k < pointCount -> (0 <= tAt k pointCount <= 1)%Q.
Proof.
  intros Hp Hk. unfold tAt, ofNat.
  assert (0 < inject_Z (Z.of_nat pointCount - 1))%Q
    by (change 0%Q with (inject_Z 0); rewrite <- Zlt_Qlt; lia).
  assert (0 <= inject_Z (Z.of_nat k))%Q
    by (change 0%Q with (inject_Z 0); rewrite <- Zle_Qle; lia).
  assert (inject_Z (Z.of_nat k) <= inject_Z (Z.of_nat pointCount - 1))%Q
    by (rewrite <- Zle_Qle; lia).
  split.
  - apply Qle_shift_div_l; [done | lra].
  - apply Qle_shift_div_r; [done | lra].
Qed.

Lemma tAt_mono (j k pointCount : nat) :
  2 <= pointCount -> j <= k -> (tAt j pointCount <= tAt k pointCount)%Q.
Proof.
  intros Hp Hjk. unfold tAt, ofNat.
  assert (0 < inject_Z (Z.of_nat pointCount - 1))%Q
    by (change 0%Q with (inject_Z 0); rewrite <- Zlt_Qlt; lia).
  assert (inject_Z (Z.of_nat j) <= inject_Z (Z.of_nat k))%Q
    by (rewrite <- Zle_Qle; lia).
  apply Qmult_le_compat_r; [done |]. apply Qinv_le_0_compat. lra.
Qed.

(** One edge loop appends one point per index; the points it appends carry
    the running [t] and a position taken from [place]. *)
Lemma edgeLoop_spec (place : Q -> Q * Q) (pointsPerSide pointCount : nat)
    (P : Q -> Q -> Prop) (indices : list nat) :
  (forall i : nat, In i indices ->
     P (fst (place (ofNat i / ofNat pointsPerSide)%Q))
       (snd (place (ofNat i / ofNat pointsPerSide)%Q))) ->
  forall pts : list StrokePoint,
    (forall (i : nat) p, pts !! i = Some p ->
       t p = Finite (tAt i pointCount) /\ positioned P p) ->
    let st := edgeLoop place pointsPerSide pointCount indices (pts, length pts) in
    snd st = length (fst st)
    /\ length (fst st) = length pts + length indices
    /\ (forall (i : nat) p, fst st !! i = Some p ->
          t p = Finite (tAt i pointCount) /\ positioned P p).
Proof.
  induction indices as [|i rest IH]; intros Hplace pts Hpts.
  - cbn. split; [done |]. split; [lia | exact Hpts].
  - cbn [edgeLoop fst snd].
    set (point := mkStrokePoint _ _ _).
    specialize (IH (fun j Hj => Hplace j (or_intror Hj)) (pts ++ [point])).
    replace (S (length pts)) with (length (pts ++ [point]))
      by (rewrite length_app; cbn; lia).
    destruct IH as (Hc & Hlen & Hall).
    + intros j p Hj.
      destruct (decide (j < length pts)) as [Hlt | Hge].
      * rewrite lookup_app_l in Hj by exact Hlt. apply Hpts. exact Hj.
      * rewrite lookup_app_r in Hj by lia.
        destruct (j - length pts) as [|d] eqn:Ed; [| destruct d; done].
        cbn in Hj. injection Hj as <-.
        assert (j = length pts) as -> by lia.
        split; [reflexivity |].
        eexists _, _. split; [reflexivity |]. split; [reflexivity |].
        apply Hplace. left. reflexivity.
    + split; [exact Hc |]. split; [| exact Hall].
      rewrite Hlen, length_app. cbn. lia.
Qed.

Lemma edgeLoop_from (place : Q -> Q * Q) (pointsPerSide pointCount : nat)
    (P : Q -> Q -> Prop) (first count : nat) (pts : list StrokePoint)
    (c : nat) :
  (forall pr : Q, (0 <= pr <= 1)%Q -> P (fst (place pr)) (snd (place pr))) ->
  1 <= pointsPerSide -> first + count <= S pointsPerSide ->
  c = length pts ->
  (forall (i : nat) p, pts !! i = Some p ->
     t p = Finite (tAt i pointCount) /\ positioned P p) ->
  let st := edgeLoop place pointsPerSide pointCount (seq first count) (pts, c) in
  snd st = length (fst st)
  /\ length (fst st) = length pts + count
  /\ (forall (i : nat) p, fst st !! i = Some p ->
        t p = Finite (tAt i pointCount) /\ positioned P p).
Proof.
  intros Hplace Hpps Hidx -> Hpts.
  pose proof (edgeLoop_spec place pointsPerSide pointCount P (seq first count))
    as H.
  cbv zeta in *. rewrite length_seq in H. apply H; [| exact Hpts].
  intros i Hi. apply in_seq in Hi. apply Hplace, progress_unit; lia.
Qed.

Lemma edgeLoop_app (place : Q -> Q * Q) (pointsPerSide pointCount : nat)
    (l1 l2 : list nat) :
  forall st,
    edgeLoop place pointsPerSide pointCount (l1 ++ l2) st
    = edgeLoop place pointsPerSide pointCount l2
        (edgeLoop place pointsPerSide pointCount l1 st).
Proof.
  induction l1 as [|i l1 IH]; intros st; [reflexivity |].
  cbn [app edgeLoop]. apply IH.
Qed.

(** The padding loop appends copies of the last point until the array has
    [pointCount] points. *)
Lemma padLoop_spec (pointCount rounds : nat) :
  forall (pts : list StrokePoint) (lastPoint : StrokePoint),
    last pts = Some lastPoint ->
    pointCount - length pts <= rounds ->
    padLoop rounds pointCount pts
    = pts ++ map (fun k => mkStrokePoint (x lastPoint) (y lastPoint)
                             (Finite (tAt k pointCount)))
               (seq (length pts) (pointCount - length pts)).
Proof.
  induction rounds as [|rounds IH]; intros pts lastPoint Hlast Hrounds.
  - replace (pointCount - length pts) with 0 by lia.
    cbn. rewrite app_nil_r. reflexivity.
  - cbn [padLoop]. destruct (length pts <? pointCount) eqn:E.
    + apply Nat.ltb_lt in E. rewrite Hlast.
      rewrite (IH _ (mkStrokePoint (x lastPoint) (y lastPoint)
                       (Finite (tAt (length pts) pointCount)))).
      * rewrite length_app. cbn [length x y].
        replace (pointCount - length pts) with (S (pointCount - (length pts + 1)))
          by lia.
        cbn [seq map]. rewrite <- app_assoc. cbn [app].
        replace (S (length pts)) with (length pts + 1) by lia. reflexivity.
      * apply last_snoc.
      * rewrite length_app. cbn. lia.
    + apply Nat.ltb_ge in E.
      replace (pointCount - length pts) with 0 by lia.
      cbn. rewrite app_nil_r. reflexivity.
Qed.

(** The array [generateSquare] returns: the [pointCount - 3] points of the
    four edge loops, then three copies of the last of them. *)
Lemma generateSquare_points (P : Q -> Q -> Prop) (size : Q)
    (pointCount : nat) :
  4 <= pointCount ->
  (forall pr : Q, (0 <= pr <= 1)%Q ->
     P (- (size / 2) + pr * size)%Q (- (size / 2))%Q
     /\ P (size / 2)%Q (- (size / 2) + pr * size)%Q
     /\ P (size / 2 - pr * size)%Q (size / 2)%Q
     /\ P (- (size / 2))%Q (size / 2 - pr * size)%Q) ->
  exists (body : list StrokePoint) (lastPoint : StrokePoint),
    strokePoints (generateSquare size pointCount)
    = body ++ map (fun k => mkStrokePoint (x lastPoint) (y lastPoint)
                              (Finite (tAt k pointCount)))
                (seq (pointCount - 3) 3)
    /\ length body = pointCount - 3
    /\ last body = Some lastPoint
    /\ (forall (i : nat) p, body !! i = Some p ->
          t p = Finite (tAt i pointCount) /\ positioned P p)
    /\ (8 <= pointCount ->
        x lastPoint = Finite (- (size / 2))%Q
        /\ y lastPoint
           = Finite (size / 2
                     - ofNat (pointCount / 4 - 1) / ofNat (pointCount / 4)
                       * size)%Q).
Proof.
  intros Hpc HP.
  unfold generateSquare. cbn [strokePoints boundingBox].
  set (h := (size / 2)%Q) in *. set (pps := pointCount / 4).
  set (r := pointCount mod 4).
  assert (Hdm : pointCount = 4 * pps + r) by apply Nat.div_mod_eq.
  assert (Hr : r < 4) by (apply Nat.mod_upper_bound; lia).
  assert (Hpps : 1 <= pps) by lia.
  clearbody pps r.
  pose proof (edgeLoop_from
                (fun progress => (- h + progress * size, - h)%Q)
                pps pointCount P 0 (pps + extra (0 <? r)) [] 0) as H1.
  cbv zeta in H1.
  destruct (edgeLoop _ pps pointCount (seq 0 _) ([], 0)) as [pts1 c1].
  destruct H1 as (Hc1 & Hl1 & Ha1);
    [ intros pr Hpr; apply (HP pr Hpr) | lia
    | destruct (0 <? r); cbn; lia | reflexivity | intros i p Hi; done |].
  cbn [fst snd length] in Hc1, Hl1, Ha1.
  pose proof (edgeLoop_from
                (fun progress => (h, - h + progress * size)%Q)
                pps pointCount P 1 (pps + extra (1 <? r) - 1) pts1 c1) as H2.
  cbv zeta in H2.
  destruct (edgeLoop _ pps pointCount (seq 1 _) (pts1, c1)) as [pts2 c2].
  destruct H2 as (Hc2 & Hl2 & Ha2);
    [ intros pr Hpr; apply (HP pr Hpr) | lia
    | destruct (1 <? r); cbn; lia | exact Hc1 | exact Ha1 |].
  cbn [fst snd] in Hc2, Hl2, Ha2.
  pose proof (edgeLoop_from
                (fun progress => (h - progress * size, h)%Q)
                pps pointCount P 1 (pps + extra (2 <? r) - 1) pts2 c2) as H3.
  cbv zeta in H3.
  destruct (edgeLoop _ pps pointCount (seq 1 _) (pts2, c2)) as [pts3 c3].
  destruct H3 as (Hc3 & Hl3 & Ha3);
    [ intros pr Hpr; apply (HP pr Hpr) | lia
    | destruct (2 <? r); cbn; lia | exact Hc2 | exact Ha2 |].
  cbn [fst snd] in Hc3, Hl3, Ha3.
  pose proof (edgeLoop_from
                (fun progress => (- h, h - progress * size)%Q)
                pps pointCount P 1 (pps - 1) pts3 c3) as H4.
  cbv zeta in H4.
  destruct (edgeLoop _ pps pointCount (seq 1 _) (pts3, c3)) as [pts4 c4] eqn:E4.
  destruct H4 as (Hc4 & Hl4 & Ha4);
    [ intros pr Hpr; apply (HP pr Hpr) | lia
    | lia | exact Hc3 | exact Ha3 |].
  cbn [fst snd] in Hc4, Hl4, Ha4 |- *.
  assert (Hlen : length pts4 = pointCount - 3).
  { rewrite Hl4, Hl3, Hl2, Hl1. unfold extra.
    destruct r as [|[|[|[|r]]]]; cbn [Nat.ltb Nat.leb]; lia. }
  destruct (last pts4) as [lastPoint|] eqn:Elast.
  2:{ apply last_None in Elast. subst pts4. cbn in Hlen. lia. }
  exists pts4, lastPoint.
  rewrite (padLoop_spec pointCount pointCount pts4 lastPoint Elast) by lia.
  rewrite Hlen. replace (pointCount - (pointCount - 3)) with 3 by lia.
  split.
  { apply take_ge. rewrite length_app, length_map, length_seq. lia. }
  split; [reflexivity |]. split; [exact Elast |]. split; [exact Ha4 |].
  intros H8.
  replace (pps - 1) with (S (pps - 2)) in E4 by lia.
  rewrite seq_S, edgeLoop_app in E4.
  destruct (edgeLoop _ pps pointCount (seq 1 (pps - 2)) (pts3, c3))
    as [pts4' c4'].
  cbn [edgeLoop fst snd] in E4. injection E4 as <- _.
  rewrite last_snoc in Elast. injection Elast as <-.
  cbn [x y]. replace (S (pps - 2)) with (pps - 1) by lia.
  split; reflexivity.
Qed.

(** Every point of the returned array. *)
Lemma generateSquare_all (P : Q -> Q -> Prop) (size : Q) (pointCount : nat) :
  4 <= pointCount ->
  (forall pr : Q, (0 <= pr <= 1)%Q ->
     P (- (size / 2) + pr * size)%Q (- (size / 2))%Q
     /\ P (size / 2)%Q (- (size / 2) + pr * size)%Q
     /\ P (size / 2 - pr * size)%Q (size / 2)%Q
     /\ P (- (size / 2))%Q (size / 2 - pr * size)%Q) ->
  length (strokePoints (generateSquare size pointCount)) = pointCount
  /\ forall (i : nat) p,
       strokePoints (generateSquare size pointCount) !! i = Some p ->
       t p = Finite (tAt i pointCount) /\ positioned P p.
Proof.
  intros Hpc HP.
  destruct (generateSquare_points P size pointCount Hpc HP)
    as (body & lastPoint & -> & Hlen & Hlast & Hbody & _).
  split.
  { rewrite length_app, length_map, length_seq. lia. }
  intros i p Hi.
  destruct (decide (i < length body)) as [Hlt | Hge].
  - rewrite lookup_app_l in Hi by exact Hlt. apply Hbody. exact Hi.
  - rewrite lookup_app_r in Hi by lia.
    rewrite list_lookup_fmap in Hi.
    destruct (seq (pointCount - 3) 3 !! (i - length body)) as [k|] eqn:Ek;
      [| done].
    apply lookup_seq in Ek as [-> Hk].
    cbn in Hi. injection Hi as <-. cbn [t x y].
    split; [f_equal; f_equal; lia |].
    rewrite last_lookup in Hlast.
    destruct (Hbody _ _ Hlast) as [_ (qx & qy & Hx & Hy & HPl)].
    exists qx, qy. done.
Qed.

End SquareFacts.

Section SquareProperties.

Import StrokeDataGenerator.

Local Open Scope nat_scope.

(** X22: [generateSquare(size, pointCount)] for [pointCount >= 4] and
    [size >= 0], in exact arithmetic.  The stroke has exactly [pointCount]
    points, point [i] carries [t = i / (pointCount - 1)], and every point
    has finite coordinates inside the bounding box returned with it. *)
Theorem generateSquare_shape (size : Q) (pointCount : nat) :
  4 <= pointCount -> (0 <= size)%Q ->
  let s := generateSquare size pointCount in
  length (strokePoints s) = pointCount
  /\ forall (i : nat) p, strokePoints s !! i = Some p ->
       t p = Finite (tAt i pointCount)
       /\ positioned (inBox (boundingBox s)) p.
Proof.
  intros Hpc Hsize s. subst s.
  apply generateSquare_all; [exact Hpc |].
  intros pr [H0 H1].
  assert (Hmul : (0 <= pr * size <= size)%Q).
  { split; [apply Qmult_le_0_compat; done |].
    rewrite <- (Qmult_1_l size) at 2. apply Qmult_le_compat_r; done. }
  assert (Hh : (size / 2 + size / 2 == size)%Q) by field.
  unfold inBox, generateSquare; cbn [boundingBox minX maxX minY maxY].
  revert Hmul Hh. generalize (pr * size)%Q. generalize (size / 2)%Q.
  intros h ps Hmul Hh. repeat split; lra.
Qed.

Lemma generateSquare_shape_witness :
  length (strokePoints (generateSquare 2 1024)) = 1024.
Proof.
  refine (proj1 (generateSquare_shape 2 1024 _ _)); [lia | discriminate].
Defined.

(** X23: a square with the default number of points is accepted as it is.
    For every size, [generateSquare(size)] passes [validateStrokeData], and
    [uploadStroke] stores it in any row of the bank without an error. *)
Theorem generateSquare_validates (fround : num -> num)
    (m : StrokeTextureManager) (size : Q) (strokeIndex : Z) :
  bank_ok m -> (0 <= strokeIndex < 64)%Z ->
  let pts := strokePoints (generateSquare size 1024) in
  valid (validateStrokeData m pts) = true
  /\ snd (uploadStroke fround m (ofZ strokeIndex) pts) = None
  /\ row (fst (uploadStroke fround m (ofZ strokeIndex) pts))
       (Z.to_nat strokeIndex)
     = encode fround pts.
Proof.
  intros Hok Hi pts. subst pts.
  destruct (generateSquare_all (fun _ _ => True) size 1024) as [Hlen Hall];
    [lia | done |].
  assert (HlenZ : length_Z (strokePoints (generateSquare size 1024)) = 1024%Z)
    by (unfold length_Z; rewrite Hlen; reflexivity).
  split.
  - apply validateStrokeData_valid_iff.
    split; [rewrite HlenZ; symmetry; apply Hok |]. split.
    + apply Forall_lookup. intros i p Hp.
      pose proof (lookup_lt_Some _ _ _ Hp) as Hlt. rewrite Hlen in Hlt.
      destruct (Hall i p Hp) as [Ht (qx & qy & Hx & Hy & _)].
      pose proof (tAt_range i 1024 ltac:(lia) Hlt) as [H0 H1].
      unfold pointAccepted, num_gt. rewrite Hx, Hy, Ht. cbn [isFinite num_lt].
      split; [reflexivity |]. split; [reflexivity |].
      split; apply Qltb_false_iff, Qle_bool_iff; assumption.
    + intros i p q Hp Hq.
      destruct (Hall i p Hp) as [-> _]. destruct (Hall (S i) q Hq) as [-> _].
      cbn [num_lt]. rewrite Qltb_false_iff, Qle_bool_iff.
      apply tAt_mono; lia.
  - pose proof (uploadStroke_success fround m strokeIndex _ Hok Hi HlenZ)
      as (Hnone & Hrow & _).
    split; [exact Hnone | exact Hrow].
Qed.

Lemma generateSquare_validates_witness :
  valid (validateStrokeData createStrokeTexture
           (strokePoints (generateSquare 2 1024))) = true.
Proof.
  refine (proj1 (generateSquare_validates fround_exact createStrokeTexture
                   2 0 bank_ok_createStrokeTexture _)).
  lia.
Defined.

(** X24: the square is not closed.  For [pointCount >= 4] the four edge
    loops produce [pointCount - 3] points and the padding loop repeats the
    last of them three times, so the last four points of the stroke share
    one position; for [pointCount >= 8] that position is on the left edge,
    one step short of the corner the stroke started from. *)
Theorem generateSquare_tail (size : Q) (pointCount : nat) :
  4 <= pointCount ->
  let pts := strokePoints (generateSquare size pointCount) in
  exists p : StrokePoint,
    pts !! (pointCount - 4) = Some p
    /\ (forall j : nat, pointCount - 4 <= j < pointCount ->
          exists q : StrokePoint,
            pts !! j = Some q /\ x q = x p /\ y q = y p)
    /\ (8 <= pointCount ->
        x p = Finite (- (size / 2))%Q
        /\ y p = Finite (size / 2
                         - ofNat (pointCount / 4 - 1) / ofNat (pointCount / 4)
                           * size)%Q).
Proof.
  intros Hpc pts. subst pts.
  destruct (generateSquare_points (fun _ _ => True) size pointCount Hpc)
    as (body & lastPoint & -> & Hlen & Hlast & _ & Hend); [done |].
  rewrite last_lookup in Hlast.
  replace (Init.Nat.pred (length body)) with (pointCount - 4) in Hlast by lia.
  exists lastPoint. split.
  { rewrite lookup_app_l by lia. exact Hlast. }
  split; [| exact Hend].
  intros j Hj.
  destruct (decide (j = pointCount - 4)) as [-> | Hne].
  - exists lastPoint. rewrite lookup_app_l by lia. done.
  - eexists. rewrite lookup_app_r by lia. rewrite list_lookup_fmap.
    assert (Hk : seq (pointCount - 3) 3 !! (j - length body)
                 = Some (pointCount - 3 + (j - length body)))
      by (apply lookup_seq; split; [reflexivity | lia]).
    rewrite Hk. cbn [fmap option_fmap option_map x y].
    split; [reflexivity |]. split; reflexivity.
Qed.

Lemma generateSquare_tail_witness :
  exists p : StrokePoint,
    strokePoints (generateSquare 2 1024) !! 1020%nat = Some p
    /\ x p = Finite (- (2 / 2))%Q.
Proof.
  destruct (generateSquare_tail 2 1024) as (p & Hp & _ & Hend); [lia |].
  exists p. split; [exact Hp | apply Hend; lia].
Defined.

End SquareProperties.

(* ===================================================================== *)
(** ** Remapping and gesture blending of the GLSL particle shader *)
(* ===================================================================== *)

Section GlslFacts.

Import ExampleDrawingCompute.

Local Open Scope Q_scope.



Lemma clamp_inside (v lo hi : Q) :
  lo <= v <= hi -> Wgsl.clamp v lo hi == v.
Proof.
  intros [H1 H2]. unfold Wgsl.clamp.
  rewrite Q.max_l by exact H1. apply Q.min_l. exact H2.
Qed.

Lemma clamp_low (v lo hi : Q) : lo <= hi -> v <= lo -> Wgsl.clamp v lo hi == lo.
Proof.
  intros H Hv. unfold Wgsl.clamp.
  rewrite Q.max_r by exact Hv. apply Q.min_l. exact H.
Qed.

Lemma clamp_high (v lo hi : Q) : lo <= hi -> hi <= v -> Wgsl.clamp v lo hi == hi.
Proof.
  intros H Hv. unfold Wgsl.clamp. apply Q.min_r.
  eapply Qle_trans; [exact Hv | apply Q.le_max_l].
Qed.

(** Remapping the frustum extent [-w/2, w/2] to [0, 1]. *)
Lemma map_frustum (v w : Q) :
  0 < w -> map v (- w / 2) (w / 2) 0 1 == v / w + 1 / 2.
Proof.
  intros Hw. unfold map. field. split; lra.
Qed.

Lemma frustum_axis (v w : Q) :
  0 < w ->
  let u := Wgsl.clamp (map v (- w / 2) (w / 2) 0 1) 0 1 in
  0 <= u <= 1
  /\ (- w / 2 <= v <= w / 2 -> u == v / w + 1 / 2)
  /\ (v <= - w / 2 -> u == 0)
  /\ (w / 2 <= v -> u == 1).
Proof.
  intros Hw u. subst u.
  pose proof (map_frustum v w Hw) as Hmap.
  assert (Hdiv : v / w * w == v) by (field; lra).
  assert (E1 : w / 2 == (1 # 2) * w) by field.
  assert (E2 : - w / 2 == - (1 # 2) * w) by field.
  set (m := map v (- w / 2) (w / 2) 0 1) in *.
  set (e := v / w) in *. change (1 / 2) with (1 # 2) in *.
  rewrite E1, E2. clearbody m e.
  assert (Hlo : - (1 # 2) * w <= v -> 0 <= e + (1 # 2)).
  { intros H. rewrite <- Hdiv in H.
    apply Qmult_lt_0_le_reg_r in H; [lra | exact Hw]. }
  assert (Hhi : v <= (1 # 2) * w -> e + (1 # 2) <= 1).
  { intros H. rewrite <- Hdiv in H.
    apply Qmult_lt_0_le_reg_r in H; [lra | exact Hw]. }
  assert (Hlo' : v <= - (1 # 2) * w -> e + (1 # 2) <= 0).
  { intros H. rewrite <- Hdiv in H.
    apply Qmult_lt_0_le_reg_r in H; [lra | exact Hw]. }
  assert (Hhi' : (1 # 2) * w <= v -> 1 <= e + (1 # 2)).
  { intros H. rewrite <- Hdiv in H.
    apply Qmult_lt_0_le_reg_r in H; [lra | exact Hw]. }
  split; [apply clamp_bounds; lra |].
  split; [| split].
  - intros [H1 H2]. rewrite <- Hmap. apply clamp_inside.
    rewrite Hmap. split; [apply Hlo; exact H1 | apply Hhi; exact H2].
  - intros H. apply clamp_low; [lra |]. rewrite Hmap. apply Hlo'. exact H.
  - intros H. apply clamp_high; [lra |]. rewrite Hmap. apply Hhi'. exact H.
Qed.

End GlslFacts.

Section GlslProperties.

Import ExampleDrawingCompute.

Local Open Scope Q_scope.



(** X26: [frustumPos_to_uv] for a frustum of positive width and height.  Both
    coordinates of the result are in [0, 1]; a position inside the frustum
    maps to [(x / w + 1/2, y / h + 1/2)] without clamping, and a position
    beyond an edge of the frustum maps to that edge, 0 or 1. *)
Theorem frustumPos_to_uv_range (cam_frustum_size frustumPos : Q * Q) :
  0 < fst cam_frustum_size -> 0 < snd cam_frustum_size ->
  let w := fst cam_frustum_size in
  let h := snd cam_frustum_size in
  let uv := frustumPos_to_uv cam_frustum_size frustumPos in
  (0 <= fst uv <= 1 /\ 0 <= snd uv <= 1)
  /\ (- w / 2 <= fst frustumPos <= w / 2 ->
      fst uv == fst frustumPos / w + 1 / 2)
  /\ (- h / 2 <= snd frustumPos <= h / 2 ->
      snd uv == snd frustumPos / h + 1 / 2)
  /\ (fst frustumPos <= - w / 2 -> fst uv == 0)
  /\ (w / 2 <= fst frustumPos -> fst uv == 1)
  /\ (snd frustumPos <= - h / 2 -> snd uv == 0)
  /\ (h / 2 <= snd frustumPos -> snd uv == 1).
Proof.
  intros Hw Hh w h uv. subst w h uv.
  unfold frustumPos_to_uv. cbn [fst snd].
  destruct (frustum_axis (fst frustumPos) (fst cam_frustum_size) Hw)
    as (Hx1 & Hx2 & Hx3 & Hx4).
  destruct (frustum_axis (snd frustumPos) (snd cam_frustum_size) Hh)
    as (Hy1 & Hy2 & Hy3 & Hy4).
  tauto.
Qed.

Lemma frustumPos_to_uv_range_witness :
  fst (frustumPos_to_uv (4, 2) (1, 0)) == 1 / 4 + 1 / 2.
Proof.
  refine (proj1 (proj2 (frustumPos_to_uv_range (4, 2) (1, 0) _ _)) _);
    [reflexivity | reflexivity | split; discriminate].
Defined.

(** X27: [SampleBlend] and [SampleGesture].  A gesture is sampled relative
    to its own start, so at phase 0 both the gesture and every blend are the
    zero offset; a blend with [mixVal = 0] is the first gesture of the pair
    and with [mixVal = 1] the second. *)
Theorem SampleBlend_endpoints (gestureDims_y : Q)
    (gestures : Q * Q -> Q * Q * Q) (gestureInd mixPair mixVal phaseVal : Q) :
  vec3_eq (SampleGesture gestureDims_y gestures gestureInd 0) (0, 0, 0)
  /\ vec3_eq (SampleBlend gestureDims_y gestures mixPair mixVal 0) (0, 0, 0)
  /\ vec3_eq (SampleBlend gestureDims_y gestures mixPair 0 phaseVal)
       (SampleGesture gestureDims_y gestures
          (glsl_mod mixPair MAX_GESTURES) phaseVal)
  /\ vec3_eq (SampleBlend gestureDims_y gestures mixPair 1 phaseVal)
       (SampleGesture gestureDims_y gestures
          (glsl_floor (mixPair / MAX_GESTURES)) phaseVal).
Proof.
  unfold SampleBlend, SampleGesture, vec3_mix, vec3_sub, vec3_eq, Wgsl.mix.
  cbn [fst snd]. repeat split; ring.
Qed.



End GlslProperties.
